(** * A shallow embedding of the Wikipedia animal scraper

    The repository holds two variants of one crawler,
    [wiki_animal_scraper.py] (module [Original] below) and
    [wiki_animal_scraper_improved.py] (module [Improved]).  Both walk the
    category graph of a wiki, keep the pages that look like animal
    articles and write the collected records to JSON files.

    Modelling choices, fixed once for the whole development:
    - Python [str] is [string]; the case mapping and the whitespace test
      are the ASCII ones (hrefs in MediaWiki markup are percent-encoded
      ASCII, and every keyword of the program is ASCII).
    - Python [set] of URLs is [gset string].  The order in which a set is
      popped or iterated is not fixed by the language, so it is a
      parameter ([schedule]) and the results hold for every schedule.
    - A parsed document is a finite tree ([node]); the few BeautifulSoup
      queries the program uses are functions over that tree.
    - The network, the clock and the outcome of file writes are the
      environment ([env]).  A fetch either yields a document or raises.
    - Exceptions are the [Raise] branch of [result]; [try_except] is the
      Python handler [except Exception].
    - A JSON file is either unreadable or holds the array of records that
      [json.dump] wrote. *)

From stdpp Require Import gmap strings list fin_sets.
From Stdlib Require Import Ascii.

Open Scope string_scope.
Open Scope list_scope.

(** [set_solver] clears hypotheses that may already be gone. *)
Set Warnings "-clear-no-such-hyp".

(** ** Exceptions *)

Inductive exn :=
| FetchError
| AttributeError.

Inductive result (A : Type) :=
| Ok (a : A)
| Raise (e : exn).
Arguments Ok {A} a.
Arguments Raise {A} e.

#[global] Instance exn_eq_dec : EqDecision exn.
Proof. solve_decision. Defined.

#[global] Instance result_eq_dec {A : Type} `{EqDecision A} :
  EqDecision (result A).
Proof. solve_decision. Defined.

#[global] Instance result_ret : MRet result := λ A a, Ok a.

#[global] Instance result_bind : MBind result := λ A B k m,
  match m with
  | Ok a => k a
  | Raise e => Raise e
  end.

(** [try: body except Exception as e: handler] *)
Definition try_except {A : Type} (body : result A) (handler : exn → result A)
  : result A :=
  match body with
  | Ok a => Ok a
  | Raise e => handler e
  end.

(** ** Python string operations *)

Definition lower_char (c : ascii) : ascii :=
  let n := nat_of_ascii c in
  if ((65 <=? n) && (n <=? 90))%nat then ascii_of_nat (n + 32) else c.

(** [s.lower()] *)
Fixpoint lower (s : string) : string :=
  match s with
  | EmptyString => EmptyString
  | String c s' => String (lower_char c) (lower s')
  end.

(** [s.startswith(p)] *)
Definition startswith (s p : string) : bool := String.prefix p s.

(** [needle in hay] *)
Fixpoint contains (needle hay : string) : bool :=
  String.prefix needle hay ||
  match hay with
  | EmptyString => false
  | String _ hay' => contains needle hay'
  end.

(** The characters [str.strip()] removes, within ASCII:
    tab, newline, vertical tab, form feed, carriage return, the four
    separators 28..31 and the space. *)
Definition is_space (c : ascii) : bool :=
  let n := nat_of_ascii c in
  (((9 <=? n) && (n <=? 13)) || ((28 <=? n) && (n <=? 32)))%nat.

Fixpoint lstrip (s : string) : string :=
  match s with
  | EmptyString => EmptyString
  | String c s' => if is_space c then lstrip s' else s
  end.

Fixpoint rstrip (s : string) : string :=
  match s with
  | EmptyString => EmptyString
  | String c s' =>
      match rstrip s' with
      | EmptyString => if is_space c then EmptyString else String c EmptyString
      | r => String c r
      end
  end.

(** [s.strip()] *)
Definition strip (s : string) : string := rstrip (lstrip s).

(** [sep.join(parts)] *)
Fixpoint join (sep : string) (parts : list string) : string :=
  match parts with
  | [] => ""
  | [p] => p
  | p :: rest => p +:+ sep +:+ join sep rest
  end.

(** Truthiness of a string: [if s] *)
Definition nonempty (s : string) : bool :=
  match s with
  | EmptyString => false
  | String _ _ => true
  end.

(** [any(k in s for k in keywords)] *)
Definition any_in (keywords : list string) (s : string) : bool :=
  existsb (λ k, contains k s) keywords.

(** ** ContentFilter: the keyword predicates

    [is_animal_category] and [is_valid_article] are the same text in both
    variants of the scraper. *)

Definition animal_keywords : list string :=
  [ "animals"; "fauna"; "species"; "vertebrates"; "invertebrates";
    "mammals"; "birds"; "reptiles"; "amphibians"; "fish"; "insects";
    "molluscs"; "crustaceans"; "arachnids"; "worms"; "endangered";
    "extinct"; "wildlife"; "_by_"; "animal" ].

Definition exclude_keywords : list string :=
  [ "help:"; "wikipedia:"; "template:"; "portal:"; "special:"; "file:";
    "mediawiki:"; "user:"; "talk:"; "project:" ].

Definition is_animal_category (category : string) : bool :=
  let category_lower := lower category in
  any_in animal_keywords category_lower
  && negb (any_in exclude_keywords category_lower).

Definition invalid_patterns : list string :=
  [ "Category:"; "File:"; "Template:"; "Help:"; "Wikipedia:"; "Portal:";
    "Special:" ].

Definition is_valid_article (url : string) : bool :=
  negb (any_in invalid_patterns url).

(** The keyword list of the page-level check inside [extract_page_info]:
    [any(keyword in cat.lower() for cat in categories for keyword in ...)]. *)
Definition page_keywords : list string :=
  [ "animal"; "fauna"; "species"; "mammals"; "birds"; "reptiles";
    "amphibians"; "fish"; "insects" ].

Definition is_animal_page (categories : list string) : bool :=
  existsb (λ cat, any_in page_keywords (lower cat)) categories.

(** ** Parsed documents

    The part of BeautifulSoup the scraper relies on.  A document is a tree
    of tags and text; a tag carries the three attributes the program reads.
    The class attribute is the list of class names, empty when absent. *)

Record attrs := Attrs {
  attr_id : option string;
  attr_class : list string;
  attr_href : option string;
}.

#[warnings="-register-all"]
Inductive node :=
| NavigableString (s : string)
| Tag (name : string) (a : attrs) (contents : list node).

(** An element is identified by its position: the child indices on the way
    down from the root of the search. *)
Definition path := list nat.

(** All descendants in document order, each with its position. *)
Fixpoint walk (n : node) : list (path * node) :=
  match n with
  | NavigableString _ => []
  | Tag _ _ contents =>
      (fix children (i : nat) (l : list node) : list (path * node) :=
         match l with
         | [] => []
         | k :: l' =>
             ((([i], k) :: map (λ d, (i :: d.1, d.2)) (walk k))
              ++ children (S i) l')%list
         end) 0 contents
  end.

Definition descendants (n : node) : list node := (walk n).*2.

(** [n.get_text()], also [n.text] *)
Fixpoint get_text (n : node) : string :=
  match n with
  | NavigableString s => s
  | Tag _ _ contents => String.concat "" (map get_text contents)
  end.

Definition is_tag (name : string) (n : node) : bool :=
  match n with
  | Tag t _ _ => String.eqb t name
  | NavigableString _ => false
  end.

Definition has_id (i : string) (n : node) : bool :=
  match n with
  | Tag _ a _ => bool_decide (attr_id a = Some i)
  | NavigableString _ => false
  end.

Definition has_class (c : string) (n : node) : bool :=
  match n with
  | Tag _ a _ => bool_decide (c ∈ attr_class a)
  | NavigableString _ => false
  end.

(** [soup.find(tag, {'id': i})]: the first match in document order. *)
Definition find_by_id (tag i : string) (soup : node) : option node :=
  head (List.filter (λ n, is_tag tag n && has_id i n) (descendants soup)).

(** [n.find(tag, {'class': c})] *)
Definition find_by_class (tag c : string) (n : node) : option node :=
  head (List.filter (λ d, is_tag tag d && has_class c d) (descendants n)).

(** [[link['href'] for link in n.find_all('a', href=True)]] *)
Definition hrefs (n : node) : list string :=
  omap (λ d, match d with
             | Tag t a _ => if String.eqb t "a" then attr_href a else None
             | NavigableString _ => None
             end) (descendants n).

(** [n.find_all('a')] *)
Definition anchors (n : node) : list node :=
  List.filter (is_tag "a") (descendants n).

(** [n.find_all(tags)] with the position of each hit. *)
Definition find_all_tags (tags : list string) (n : node) : list (path * node) :=
  List.filter (λ d, existsb (λ t, is_tag t d.2) tags) (walk n).

(** [n.find_all('p', recursive=False)]: direct children only. *)
Definition paragraphs (n : node) : list (path * node) :=
  match n with
  | NavigableString _ => []
  | Tag _ _ contents =>
      List.filter (λ d, is_tag "p" d.2) (imap (λ i k, ([i], k)) contents)
  end.

(** The text of [n], which sits at position [here], once the elements at
    the positions [removed] have been taken out of the tree. *)
Fixpoint text_without (removed : list path) (here : path) (n : node) : string :=
  match n with
  | NavigableString s => s
  | Tag _ _ contents =>
      (fix children (i : nat) (l : list node) : string :=
         match l with
         | [] => ""
         | k :: l' =>
             (if bool_decide ((here ++ [i])%list ∈ removed) then ""
              else text_without removed (here ++ [i])%list k)
             +:+ children (S i) l'
         end) 0 contents
  end.

(** ** Records, files and the environment *)

(** One entry of [animal_data].  The original scraper writes no
    timestamp, the improved one does. *)
Record record := Record_ {
  title : string;
  url : string;
  main_text : string;
  categories : list string;
  timestamp : option string;
}.

#[global] Instance record_eq_dec : EqDecision record.
Proof. solve_decision. Defined.

(** What a path on disk holds: the array a successful [json.dump] wrote,
    or bytes that [json.load] rejects (a dump cut short). *)
Inductive file :=
| JsonArray (entries : list record)
| Unreadable.

#[global] Instance file_eq_dec : EqDecision file.
Proof. solve_decision. Defined.

(** How [open(filename, 'w')] followed by [json.dump] ends. *)
Inductive write_result :=
| Written
| OpenFailed
| DumpFailed.

Record env := Env {
  (** [requests.get] and the parser: a document, or an exception *)
  get_page_content : string → result node;
  (** [datetime.utcnow().isoformat()] *)
  utcnow : string;
  (** whether the parser raises when a loop touches an element that an
      earlier [decompose] of an enclosing element has destroyed *)
  decomposed_access_raises : bool;
  write_outcome : string → write_result;
}.

Definition base_url : string := "https://en.wikipedia.org".

(** ** CategoryExplorer: the two link scans shared by both variants *)

(** The loop over [div_id] that fills [subcategories]. *)
Definition scan_category_links (soup : node) (div_ids : list string)
    (subcategories : gset string) : gset string :=
  foldl (λ subcategories div_id,
    match find_by_id "div" div_id soup with
    | Some category_div =>
        foldl (λ subcategories href,
          if startswith href "/wiki/Category:" && is_animal_category href
          then subcategories ∪ {[ base_url +:+ href ]}
          else subcategories) subcategories (hrefs category_div)
    | None => subcategories
    end) subcategories div_ids.

(** The loop over the links of the [mw-pages] container that fills [pages]. *)
Definition scan_page_links (soup : node) (pages : gset string) : gset string :=
  match find_by_id "div" "mw-pages" soup with
  | Some pages_div =>
      foldl (λ pages href,
        if startswith href "/wiki/" && is_valid_article href
        then pages ∪ {[ base_url +:+ href ]}
        else pages) pages (hrefs pages_div)
  | None => pages
  end.

(** ** PageExtractor: the parts shared by both variants *)

Definition unwanted_tags : list string :=
  [ "table"; "div"; "script"; "style"; "sup"; "span" ].

(** [element.get('class') and any('infobox' in c for c in element.get('class', []))] *)
Definition is_infobox (element : node) : bool :=
  match element with
  | Tag _ a _ =>
      match attr_class a with
      | [] => false
      | cs => existsb (contains "infobox") cs
      end
  | NavigableString _ => false
  end.

(** An element is stale when it lies inside an element already removed. *)
Definition is_stale (removed : list path) (p : path) : bool :=
  existsb (λ r, bool_decide (r `prefix_of` p)) removed.

(** One turn of the removal loop on the element at position [d.1]:
    [if ...infobox...: continue] and [element.decompose()]. *)
Definition decompose_step (e : env) (removed : list path) (d : path * node)
  : result (list path) :=
  if is_stale removed d.1 then
    if decomposed_access_raises e then Raise AttributeError else Ok removed
  else if is_infobox d.2 then Ok removed
  else Ok (d.1 :: removed).

(** [main_text]: the stripped, non-empty texts of the direct paragraphs,
    joined by a blank line. *)
Definition paragraph_text (removed : list path) (main_content : node) : string :=
  join (String (ascii_of_nat 10) (String (ascii_of_nat 10) ""))
    (List.filter nonempty
       (map (λ d, strip (text_without removed d.1 d.2)) (paragraphs main_content))).

(** ** CrawlState *)

(** The fields [__init__] gives a [WikiAnimalScraper]. *)
Record scraper := Scraper {
  visited_pages : gset string;
  visited_categories : gset string;
  animal_data : list record;
  total_categories_processed : nat;
  total_pages_found : nat;
  total_pages_processed : nat;
}.

(** A running process: the object, the files it can see, and a log of the
    URLs handed to [extract_page_info] (kept only to state what was and
    was not extracted). *)
Record machine := Machine {
  self : scraper;
  files : gmap string file;
  extractor_calls : list string;
}.

Definition new_scraper : scraper :=
  {| visited_pages := ∅; visited_categories := ∅; animal_data := [];
     total_categories_processed := 0; total_pages_found := 0;
     total_pages_processed := 0 |}.

(** The object as the first lines of [__init__] leave it. *)
Definition constructed (fs : gmap string file) : machine :=
  {| self := new_scraper; files := fs; extractor_calls := [] |}.

Definition urls (entries : list record) : list string := url <$> entries.

Definition partial_file : string := "animal_data_partial.json".
Definition main_file : string := "animal_data.json".

(** [save_data(filename)]: same text in both variants.  A failure is
    caught and printed; the file is then untouched or cut short. *)
Definition save_data (e : env) (filename : string) (m : machine) : machine :=
  match write_outcome e filename with
  | Written =>
      {| self := self m;
         files := <[filename := JsonArray (animal_data (self m))]> (files m);
         extractor_calls := extractor_calls m |}
  | OpenFailed => m
  | DumpFailed =>
      {| self := self m;
         files := <[filename := Unreadable]> (files m);
         extractor_calls := extractor_calls m |}
  end.

(** [self.visited_categories.add(current_url); self.total_categories_processed += 1] *)
Definition enter_category (m : machine) (current_url : string) : machine :=
  {| self :=
       {| visited_pages := visited_pages (self m);
          visited_categories := visited_categories (self m) ∪ {[ current_url ]};
          animal_data := animal_data (self m);
          total_categories_processed := total_categories_processed (self m) + 1;
          total_pages_found := total_pages_found (self m);
          total_pages_processed := total_pages_processed (self m) |};
     files := files m;
     extractor_calls := extractor_calls m |}.

(** [self.animal_data.append(page_info); self.total_pages_processed += 1] *)
Definition append_record (m : machine) (page_info : record) : machine :=
  {| self :=
       {| visited_pages := visited_pages (self m);
          visited_categories := visited_categories (self m);
          animal_data := animal_data (self m) ++ [page_info];
          total_categories_processed := total_categories_processed (self m);
          total_pages_found := total_pages_found (self m);
          total_pages_processed := total_pages_processed (self m) + 1 |};
     files := files m;
     extractor_calls := extractor_calls m |}.

(** [self.visited_pages.add(page_url)], with [found] more pages counted as
    found and the call of the extractor that follows noted in the log. *)
Definition mark_page (found : nat) (m : machine) (page_url : string) : machine :=
  {| self :=
       {| visited_pages := visited_pages (self m) ∪ {[ page_url ]};
          visited_categories := visited_categories (self m);
          animal_data := animal_data (self m);
          total_categories_processed := total_categories_processed (self m);
          total_pages_found := total_pages_found (self m) + found;
          total_pages_processed := total_pages_processed (self m) |};
     files := files m;
     extractor_calls := extractor_calls m ++ [page_url] |}.

(** [self.total_pages_found += found] *)
Definition count_found (m : machine) (found : nat) : machine :=
  {| self :=
       {| visited_pages := visited_pages (self m);
          visited_categories := visited_categories (self m);
          animal_data := animal_data (self m);
          total_categories_processed := total_categories_processed (self m);
          total_pages_found := total_pages_found (self m) + found;
          total_pages_processed := total_pages_processed (self m) |};
     files := files m;
     extractor_calls := extractor_calls m |}.

(** The order in which Python pops and iterates a set. *)
Record schedule := Schedule {
  pop : gset string → string;
  iter : gset string → list string;
}.

Definition schedule_ok (sch : schedule) : Prop :=
  (∀ q, q ≠ ∅ → pop sch q ∈ q) ∧ (∀ s, iter sch s ≡ₚ elements s).

(** One concrete schedule: the order of [elements]. *)
Definition elements_schedule : schedule :=
  {| pop := λ q, default "" (head (elements q)); iter := elements |}.

(** The page test of the engine: [page_info and page_info['main_text']]. *)
Definition accepted (extracted : result (option record)) : option record :=
  match extracted with
  | Ok (Some page_info) =>
      if nonempty (main_text page_info) then Some page_info else None
  | Ok None => None
  | Raise _ => None
  end.

(** ** The original scraper *)

Module Original.

(** The pagination links of a category page: the scan over every link of
    the document that fills [next_links]. *)
Definition next_links (soup : node) : list string :=
  foldl (λ next_links href,
    if (contains "pagefrom=" href || contains "pageuntil=" href)
       && contains "Category:" href
    then if startswith href "/w/"
         then next_links ++ [base_url +:+ href]
         else if startswith href "/wiki/"
         then next_links ++ [base_url +:+ href]
         else next_links
    else next_links) [] (hrefs soup).

(** One turn of the loop over [next_links]; a failing fetch is caught and
    leaves both sets as they were. *)
Definition merge_next_page (e : env) (found : gset string * gset string)
    (next_page_url : string) : gset string * gset string :=
  match get_page_content e next_page_url with
  | Ok next_soup =>
      (scan_category_links next_soup
         ["mw-subcategories"; "mw-normal-catlinks"] found.1,
       scan_page_links next_soup found.2)
  | Raise _ => found
  end.

(** [get_subcategories_and_pages]: the first page, then every pagination
    link found on it.  A failing fetch of the first page is not caught
    here. *)
Definition get_subcategories_and_pages (e : env) (url : string)
  : result (gset string * gset string) :=
  soup ← get_page_content e url;
  let subcategories :=
    scan_category_links soup
      ["mw-subcategories"; "mw-normal-catlinks"; "mw-hidden-catlinks"] ∅ in
  let pages := scan_page_links soup ∅ in
  Ok (foldl (merge_next_page e) (subcategories, pages) (next_links soup)).

(** The removal loop, with no handler around its body. *)
Fixpoint remove_unwanted (e : env) (found : list (path * node))
    (removed : list path) : result (list path) :=
  match found with
  | [] => Ok removed
  | d :: rest =>
      removed' ← decompose_step e removed d;
      remove_unwanted e rest removed'
  end.

(** [extract_page_info]: no handler; the statements after the first
    [return {...}] of the source are unreachable and have no counterpart. *)
Definition extract_page_info (e : env) (url : string)
  : result (option record) :=
  soup ← get_page_content e url;
  let title :=
    match find_by_id "h1" "firstHeading" soup with
    | Some h => get_text h
    | None => ""
    end in
  if negb (nonempty title) then Ok None else
  match find_by_id "div" "mw-content-text" soup with
  | None => Ok None
  | Some content_div =>
      let categories :=
        match find_by_id "div" "mw-normal-catlinks" soup with
        | Some catlinks => map get_text (anchors catlinks)
        | None => []
        end in
      if negb (is_animal_page categories) then Ok None else
      match find_by_class "div" "mw-parser-output" content_div with
      | None => Ok None
      | Some main_content =>
          removed ← remove_unwanted e
                      (find_all_tags unwanted_tags main_content) [];
          let main_text := paragraph_text removed main_content in
          if negb (nonempty main_text) then Ok None else
          Ok (Some {| title := title; url := url; main_text := main_text;
                      categories := categories; timestamp := None |})
      end
  end.

(** Body of the first [while] loop, after [category_queue.pop()]. *)
Definition collect_category (e : env) (category_queue pages_to_process : gset string)
    (m : machine) (current_url : string)
  : gset string * gset string * machine :=
  if bool_decide (current_url ∈ visited_categories (self m))
  then (category_queue, pages_to_process, m)
  else
    let m := enter_category m current_url in
    let '(category_queue, pages_to_process, m) :=
      match get_subcategories_and_pages e current_url with
      | Ok (new_subcategories, new_pages) =>
          let new_pages :=
            filter (λ page, page ∉ visited_pages (self m)) new_pages in
          (category_queue ∪ new_subcategories,
           pages_to_process ∪ new_pages,
           count_found m (size new_pages))
      | Raise _ => (category_queue, pages_to_process, m)
      end in
    let m :=
      if (total_categories_processed (self m) mod 20 =? 0)%nat
         && (0 <? length (animal_data (self m)))%nat
      then save_data e partial_file m else m in
    (category_queue, pages_to_process, m).

(** The first loop: [while category_queue: ...]. *)
Fixpoint collect_loop (e : env) (sch : schedule) (fuel : nat)
    (category_queue pages_to_process : gset string) (m : machine)
  : option (gset string * gset string * machine) :=
  match fuel with
  | 0 => None
  | S fuel =>
      if decide (category_queue = ∅)
      then Some (category_queue, pages_to_process, m)
      else
        let current_url := pop sch category_queue in
        let '(category_queue, pages_to_process, m) :=
          collect_category e (category_queue ∖ {[ current_url ]})
            pages_to_process m current_url in
        collect_loop e sch fuel category_queue pages_to_process m
  end.

(** Body of the second loop, [for i, page_url in enumerate(pages_to_process, 1)]. *)
Definition process_page (e : env) (m : machine) (page_url : string) : machine :=
  if bool_decide (page_url ∈ visited_pages (self m)) then m
  else
    let m := mark_page 0 m page_url in
    match accepted (extract_page_info e page_url) with
    | Some page_info =>
        let m := append_record m page_info in
        if (total_pages_processed (self m) mod 10 =? 0)%nat
        then save_data e partial_file m else m
    | None => m
    end.

Definition scrape_animals (e : env) (sch : schedule) (fuel : nat)
    (start_url : string) (m : machine)
  : option (gset string * machine) :=
  match collect_loop e sch fuel {[ start_url ]} ∅ m with
  | Some (category_queue, pages_to_process, m) =>
      Some (category_queue,
            foldl (process_page e) m (iter sch pages_to_process))
  | None => None
  end.

(** [scraper = WikiAnimalScraper(); scraper.scrape_animals(); scraper.save_data()] *)
Definition main (e : env) (sch : schedule) (fuel : nat)
    (fs : gmap string file) : option machine :=
  match scrape_animals e sch fuel (base_url +:+ "/wiki/Category:Animals")
          (constructed fs) with
  | Some (_, m) => Some (save_data e main_file m)
  | None => None
  end.

End Original.

(** ** The improved scraper *)

Module Improved.

(** [get_subcategories_and_pages]: one page, no pagination; any exception
    yields two empty sets. *)
Definition get_subcategories_and_pages (e : env) (url : string)
  : result (gset string * gset string) :=
  try_except
    (soup ← get_page_content e url;
     let subcategories :=
       scan_category_links soup
         ["mw-subcategories"; "mw-normal-catlinks"; "mw-hidden-catlinks"] ∅ in
     let pages := scan_page_links soup ∅ in
     Ok (subcategories, pages))
    (λ _, Ok (∅, ∅)).

(** The removal loop; each turn has its own handler, which moves on to
    the next element. *)
Fixpoint remove_unwanted (e : env) (found : list (path * node))
    (removed : list path) : result (list path) :=
  match found with
  | [] => Ok removed
  | d :: rest =>
      removed' ← try_except (decompose_step e removed d) (λ _, Ok removed);
      remove_unwanted e rest removed'
  end.

Definition extract_page_info (e : env) (url : string)
  : result (option record) :=
  try_except
    (soup ← get_page_content e url;
     match find_by_id "h1" "firstHeading" soup with
     | None => Ok None
     | Some title_elem =>
         let title := strip (get_text title_elem) in
         if negb (nonempty title) then Ok None else
         match find_by_id "div" "mw-content-text" soup with
         | None => Ok None
         | Some content_div =>
             let categories :=
               match find_by_id "div" "mw-normal-catlinks" soup with
               | Some catlinks => map (λ link, strip (get_text link))
                                      (anchors catlinks)
               | None => []
               end in
             let is_animal_page := is_animal_page categories in
             if negb is_animal_page then Ok None else
             match find_by_class "div" "mw-parser-output" content_div with
             | None => Ok None
             | Some main_content =>
                 removed ← remove_unwanted e
                             (find_all_tags unwanted_tags main_content) [];
                 let main_text := paragraph_text removed main_content in
                 if negb (nonempty main_text) then Ok None else
                 Ok (Some {| title := title; url := url;
                             main_text := main_text;
                             categories := categories;
                             timestamp := Some (utcnow e) |})
             end
         end
     end)
    (λ _, Ok None).

(** [load_existing_data]: when the partial file exists and parses, its
    array becomes [animal_data] and the URLs in it become
    [visited_pages]; nothing else is touched. *)
Definition load_existing_data (m : machine) : machine :=
  match files m !! partial_file with
  | Some (JsonArray entries) =>
      {| self :=
           {| visited_pages := list_to_set (urls entries);
              visited_categories := visited_categories (self m);
              animal_data := entries;
              total_categories_processed :=
                total_categories_processed (self m);
              total_pages_found := total_pages_found (self m);
              total_pages_processed := total_pages_processed (self m) |};
         files := files m;
         extractor_calls := extractor_calls m |}
  | Some Unreadable => m
  | None => m
  end.

(** [WikiAnimalScraper()] *)
Definition init (fs : gmap string file) : machine :=
  load_existing_data (constructed fs).

(** Body of [for page_url in new_pages]. *)
Definition process_page (e : env) (m : machine) (page_url : string) : machine :=
  if bool_decide (page_url ∈ visited_pages (self m)) then m
  else
    let m := mark_page 1 m page_url in
    match accepted (extract_page_info e page_url) with
    | Some page_info =>
        let m := append_record m page_info in
        if (length (animal_data (self m)) mod 10 =? 0)%nat
        then save_data e main_file (save_data e partial_file m)
        else m
    | None => m
    end.

(** Body of the [while] loop, after [category_queue.pop()]. *)
Definition visit_category (e : env) (sch : schedule)
    (category_queue : gset string) (m : machine) (current_url : string)
  : gset string * machine :=
  if bool_decide (current_url ∈ visited_categories (self m))
  then (category_queue, m)
  else
    let m := enter_category m current_url in
    match get_subcategories_and_pages e current_url with
    | Ok (new_subcategories, new_pages) =>
        (category_queue ∪ new_subcategories,
         foldl (process_page e) m (iter sch new_pages))
    | Raise _ => (category_queue, m)
    end.

(** [while category_queue: ...]; [None] when the fuel runs out first. *)
Fixpoint scrape_loop (e : env) (sch : schedule) (fuel : nat)
    (category_queue : gset string) (m : machine)
  : option (gset string * machine) :=
  match fuel with
  | 0 => None
  | S fuel =>
      if decide (category_queue = ∅) then Some (category_queue, m)
      else
        let current_url := pop sch category_queue in
        let '(category_queue, m) :=
          visit_category e sch (category_queue ∖ {[ current_url ]})
            m current_url in
        scrape_loop e sch fuel category_queue m
  end.

Definition scrape_animals (e : env) (sch : schedule) (fuel : nat)
    (start_url : string) (m : machine)
  : option (gset string * machine) :=
  scrape_loop e sch fuel {[ start_url ]} m.

(** [scraper = WikiAnimalScraper(); scraper.scrape_animals(); scraper.save_data()] *)
Definition main (e : env) (sch : schedule) (fuel : nat)
    (fs : gmap string file) : option machine :=
  match scrape_animals e sch fuel (base_url +:+ "/wiki/Category:Animals")
          (init fs) with
  | Some (_, m) => Some (save_data e main_file m)
  | None => None
  end.

End Improved.

(** ** The engine as a transition system

    One action of a running scraper of either variant.  The relation is
    wider than the loops: it lets any category be entered and any page be
    offered at any time, so what holds along it holds along every run of
    [Original.main] and [Improved.main], finished or interrupted. *)
Inductive engine_step : machine → machine → Prop :=
| step_rehydrate fs :
    engine_step (constructed fs) (Improved.init fs)
| step_enter m current_url :
    current_url ∉ visited_categories (self m) →
    engine_step m (enter_category m current_url)
| step_found m found :
    engine_step m (count_found m found)
| step_page_improved e m page_url :
    engine_step m (Improved.process_page e m page_url)
| step_page_original e m page_url :
    engine_step m (Original.process_page e m page_url)
| step_save e filename m :
    engine_step m (save_data e filename m).

(** The states a scraper can be in, over any number of runs: the first run
    starts on a disk without files, and a later run starts from the files
    the earlier ones left, wherever they stopped. *)
Inductive reachable : machine → Prop :=
| reach_fresh : reachable (constructed ∅)
| reach_step m m' : reachable m → engine_step m m' → reachable m'
| reach_restart m : reachable m → reachable (constructed (files m)).

(** Every stored array holds at most one record per URL. *)
Definition files_ok (fs : gmap string file) : Prop :=
  ∀ name entries, fs !! name = Some (JsonArray entries) → NoDup (urls entries).

(** The state invariant: one record per URL, every recorded URL visited. *)
Definition crawl_ok (m : machine) : Prop :=
  NoDup (urls (animal_data (self m)))
  ∧ (∀ u, u ∈ urls (animal_data (self m)) → u ∈ visited_pages (self m)).

(** ** Vocabulary for the category graph *)

Module Graph.

(** What exploring a category yields, with a failed exploration read as
    "nothing found", which is how both loops treat it. *)
Definition links (explore : result (gset string * gset string))
  : gset string * gset string :=
  match explore with
  | Ok found => found
  | Raise _ => (∅, ∅)
  end.

(** [closed subcats U]: no category of [U] links outside [U]. *)
Definition closed (subcats : string → gset string) (U : gset string) : Prop :=
  ∀ c, c ∈ U → subcats c ⊆ U.

(** The pages listed by the categories of [cs]. *)
Definition discovered (pages : string → gset string) (cs : gset string)
  : gset string :=
  set_bind pages cs.

End Graph.

(** ** The two variants side by side *)

Inductive variant := original | improved.

Definition explore (v : variant) : env → string → result (gset string * gset string) :=
  match v with
  | original => Original.get_subcategories_and_pages
  | improved => Improved.get_subcategories_and_pages
  end.

Definition extract (v : variant) : env → string → result (option record) :=
  match v with
  | original => Original.extract_page_info
  | improved => Improved.extract_page_info
  end.

Definition scrape_animals (v : variant)
  : env → schedule → nat → string → machine → option (gset string * machine) :=
  match v with
  | original => Original.scrape_animals
  | improved => Improved.scrape_animals
  end.

(** The child categories and the member pages that exploring [c] yields. *)
Definition subcategories_of (v : variant) (e : env) (c : string) : gset string :=
  (Graph.links (explore v e c)).1.

Definition pages_of (v : variant) (e : env) (c : string) : gset string :=
  (Graph.links (explore v e c)).2.

(** [accepts v e u]: the extractor returns a record with text for [u],
    which is when the engine appends one. *)
Definition accepts (v : variant) (e : env) (u : string) : Prop :=
  is_Some (accepted (extract v e u)).

#[global] Instance accepts_dec v e u : Decision (accepts v e u).
Proof. unfold accepts. apply _. Defined.

(** The category test the extractor applies to the page at [u]: its
    footer links, stripped, run through [is_animal_page]. *)
Definition topical_page (e : env) (u : string) : bool :=
  match get_page_content e u with
  | Ok soup =>
      is_animal_page
        match find_by_id "div" "mw-normal-catlinks" soup with
        | Some catlinks => map (λ link, strip (get_text link)) (anchors catlinks)
        | None => []
        end
  | Raise _ => false
  end.

(** The set of URLs recorded in [animal_data]. *)
Definition recorded (m : machine) : gset string :=
  list_to_set (urls (animal_data (self m))).

(** What holds of the frontier [q] and the state [m] between two turns
    of the crawl loop that started in state [m0], on a site whose
    categories lie in [U]: the pages visited and the URLs recorded are
    those present at the start plus what the categories entered since
    then list. *)
Definition loop_invariant (v : variant) (e : env) (U : gset string)
    (m0 : machine) (q : gset string) (m : machine) : Prop :=
  let found :=
    Graph.discovered (pages_of v e)
      (visited_categories (self m) ∖ visited_categories (self m0)) in
  q ⊆ U
  ∧ crawl_ok m
  ∧ visited_categories (self m0) ⊆ visited_categories (self m)
  ∧ visited_pages (self m) = visited_pages (self m0) ∪ found
  ∧ recorded m =
      recorded m0 ∪ filter (accepts v e) (found ∖ visited_pages (self m0)).

(** The same for the first loop of the original scraper, which only
    gathers: [p] is its [pages_to_process]. *)
Definition collect_invariant (e : env) (U : gset string) (m0 : machine)
    (q p : gset string) (m : machine) : Prop :=
  let found :=
    Graph.discovered (pages_of original e)
      (visited_categories (self m) ∖ visited_categories (self m0)) in
  q ⊆ U
  ∧ visited_categories (self m0) ⊆ visited_categories (self m)
  ∧ visited_pages (self m) = visited_pages (self m0)
  ∧ animal_data (self m) = animal_data (self m0)
  ∧ p = found ∖ visited_pages (self m0).

(** The bound on the turns still to come. *)
Definition loop_measure (U q : gset string) (m : machine) : nat :=
  size (U ∖ visited_categories (self m)) * (size U + 1) + size q.

(** ** Sample sites

    Small documents and sites on which the definitions above are run. *)

Module Sample.

Definition plain : attrs := Attrs None [] None.

Definition div_id (i : string) (contents : list node) : node :=
  Tag "div" (Attrs (Some i) [] None) contents.

Definition link (href text : string) : node :=
  Tag "a" (Attrs None [] (Some href)) [NavigableString text].

(** An article with a heading, a content container with one paragraph
    per entry of [body], and a category footer. *)
Definition article (heading : string) (cats body : list string) : node :=
  Tag "html" plain
    [ Tag "h1" (Attrs (Some "firstHeading") [] None) [NavigableString heading];
      div_id "mw-content-text"
        [ Tag "div" (Attrs None ["mw-parser-output"] None)
            (map (λ b, Tag "p" plain [NavigableString b]) body) ];
      div_id "mw-normal-catlinks"
        (map (λ c, link ("/wiki/Category:" +:+ c) c) cats) ].

(** A category page: subcategory links, member links, and the links of
    the navigation bar ([other]), where pagination links live. *)
Definition category_page (subs pages other : list string) : node :=
  Tag "html" plain
    [ div_id "mw-subcategories" (map (λ h, link h h) subs);
      div_id "mw-pages" (map (λ h, link h h) pages);
      Tag "div" plain (map (λ h, link h h) other) ].

(** A site serves the listed documents and fails on every other URL. *)
Definition serve (docs : list (string * node)) (u : string) : result node :=
  match list_find (λ d, d.1 = u) docs with
  | Some (_, (_, doc)) => Ok doc
  | None => Raise FetchError
  end.

Definition site (docs : list (string * node)) : env :=
  {| get_page_content := serve docs; utcnow := "2024-01-01T00:00:00";
     decomposed_access_raises := true; write_outcome := λ _, Written |}.

Definition start_url : string := base_url +:+ "/wiki/Category:Animals".

(** Three categories, two of them topical, a link back to the root, and
    five member links: three animal articles with text, one with an
    empty body, one that is not about animals, plus a file link. *)
Definition savanna : env :=
  site
    [ (start_url,
       category_page ["/wiki/Category:Mammals"; "/wiki/Category:Cars"]
         ["/wiki/Lion"; "/wiki/Stub"; "/wiki/File:Lion.jpg"] []);
      (base_url +:+ "/wiki/Category:Mammals",
       category_page ["/wiki/Category:Animals"]
         ["/wiki/Lion"; "/wiki/Tiger"; "/wiki/Car"] []);
      (base_url +:+ "/wiki/Category:Cars",
       category_page [] ["/wiki/Car"] []);
      (base_url +:+ "/wiki/Lion", article "Lion" ["Mammals"] ["The lion."]);
      (base_url +:+ "/wiki/Tiger", article "Tiger" ["Mammals"] ["The tiger."]);
      (base_url +:+ "/wiki/Stub", article "Stub" ["Mammals"] [" "]);
      (base_url +:+ "/wiki/Car", article "Car" ["Vehicles"] ["A car."]) ].

(** A category split over two pages: A and B on the first, C on the
    continuation that the first page links to. *)
Definition birds_url : string := base_url +:+ "/wiki/Category:Birds".
Definition birds_next : string := "/w/index.php?title=Category:Birds&pagefrom=C".

Definition paged : env :=
  site
    [ (birds_url, category_page [] ["/wiki/A"; "/wiki/B"] [birds_next]);
      (base_url +:+ birds_next, category_page [] ["/wiki/C"] []) ].

(** No URL can be fetched. *)
Definition offline : env := site [].

(** A root category with ten animal articles, enough for one checkpoint. *)
Definition herd_names : list string :=
  ["A0"; "A1"; "A2"; "A3"; "A4"; "A5"; "A6"; "A7"; "A8"; "A9"].

Definition herd : env :=
  site
    ((start_url, category_page [] (map (λ n, "/wiki/" +:+ n) herd_names) [])
     :: map (λ n, (base_url +:+ "/wiki/" +:+ n,
                   article n ["Mammals"] ["About " +:+ n]))
            herd_names).

(** The state at the end of a first run of the improved scraper, and the
    state of a second process started on the files it left. *)
Definition run (e : env) (fs : gmap string file) : machine :=
  default (constructed fs) (Improved.main e elements_schedule 10 fs).

Definition savanna_run : machine := run savanna ∅.
Definition herd_run : machine := run herd ∅.
Definition herd_resumed : machine := Improved.init (files herd_run).
Definition herd_second_run : machine := run herd (files herd_run).

(** The crawl alone, without the final save. *)
Definition crawl (e : env) (fs : gmap string file) : gset string * machine :=
  default (∅, constructed fs)
    (Improved.scrape_animals e elements_schedule 10 start_url
       (Improved.init fs)).

End Sample.

(** ** Specification vocabulary for substrings *)

(** [occurs k s]: the string [k] occurs in [s] as a contiguous block. *)
Definition occurs (k s : string) : Prop :=
  ∃ pre post, s = pre +:+ k +:+ post.

(** [occurs_nocase k s]: some block of [s] is [k] up to letter case. *)
Definition occurs_nocase (k s : string) : Prop :=
  ∃ pre mid post, s = pre +:+ mid +:+ post ∧ lower mid = k.

(** The marker of the project namespace, as the exclusion list of
    [is_animal_category] spells it ("project:"), in the capitalised form
    that MediaWiki links carry. *)
Definition project_marker : string := "Project:".

(** ** Vocabulary for the further properties *)

(** [category_link u]: [u] is the site address of a link that the
    explorers admit as a child category. *)
Definition category_link (u : string) : Prop :=
  ∃ href, u = base_url +:+ href
          ∧ startswith href "/wiki/Category:" = true
          ∧ is_animal_category href = true.

(** [page_link u]: [u] is the site address of a link that the explorers
    admit as a candidate page. *)
Definition page_link (u : string) : Prop :=
  ∃ href, u = base_url +:+ href
          ∧ startswith href "/wiki/" = true
          ∧ is_valid_article href = true.

(** The category names of a page as each extractor reads them from the
    footer: the improved one strips them. *)
Definition page_categories (v : variant) (soup : node) : list string :=
  match find_by_id "div" "mw-normal-catlinks" soup with
  | Some catlinks =>
      map (λ link, match v with
                   | original => get_text link
                   | improved => strip (get_text link)
                   end) (anchors catlinks)
  | None => []
  end.

(** [covered removed p]: the element at [p] is gone from the tree, taken
    out itself or together with an element around it. *)
Definition covered (removed : list path) (p : path) : Prop :=
  ∃ r, r ∈ removed ∧ r `prefix_of` p.

(** The states of one process of the improved scraper, from [__init__] on
    through any turns of its two loops on the site [e]. *)
Inductive improved_state (e : env) (fs : gmap string file) : machine → Prop :=
| improved_started :
    improved_state e fs (Improved.init fs)
| improved_entered m current_url :
    improved_state e fs m →
    current_url ∉ visited_categories (self m) →
    improved_state e fs (enter_category m current_url)
| improved_offered m page_url :
    improved_state e fs m →
    improved_state e fs (Improved.process_page e m page_url).

(** The same for the original scraper, which starts empty. *)
Inductive original_state (e : env) (fs : gmap string file) : machine → Prop :=
| original_started :
    original_state e fs (constructed fs)
| original_entered m current_url :
    original_state e fs m →
    current_url ∉ visited_categories (self m) →
    original_state e fs (enter_category m current_url)
| original_found m found :
    original_state e fs m →
    original_state e fs (count_found m found)
| original_saved m filename :
    original_state e fs m →
    original_state e fs (save_data e filename m)
| original_offered m page_url :
    original_state e fs m →
    original_state e fs (Original.process_page e m page_url).

(** What a scraper started on the files [fs] would load. *)
Definition checkpointed (fs : gmap string file) : list record :=
  animal_data (self (Improved.init fs)).

(** [category_reachable subcats start c]: [c] is [start] or can be reached
    from it along admitted child-category links. *)
Definition category_reachable (subcats : string → gset string)
    (start c : string) : Prop :=
  rtc (λ a b, b ∈ subcats a) start c.

(** What holds of the frontier [q] and the visited categories [vc] between
    two turns of a crawl loop started at [start] with nothing visited:
    both hold reachable categories only, the start is among them, and the
    children of a visited category are visited or waiting. *)
Definition frontier_invariant (subcats : string → gset string) (start : string)
    (q vc : gset string) : Prop :=
  (∀ c, c ∈ q ∪ vc → category_reachable subcats start c)
  ∧ start ∈ q ∪ vc
  ∧ (∀ c, c ∈ vc → subcats c ⊆ q ∪ vc).

(** ** The upload monitor

    [upload_data_to_oss.py] and [monitor_and_upload.py].  What the monitor
    sees of the disk and of the object store at one moment is a
    [snapshot]; the log [attempts] lists the files handed to the client,
    in order. *)

Module Uploader.

Record snapshot := Snapshot {
  (** [os.path.exists] *)
  path_exists : string → bool;
  (** [os.path.getsize] *)
  path_getsize : string → nat;
  (** [get_oss_client().upload_file(filename, bucket, key)] *)
  client_upload_file : string → string → string → result unit;
}.

(** [upload_file(filename, bucket)] with its result and the log. *)
Definition upload_file (w : snapshot) (filename bucket : string)
    (attempts : list string) : bool * list string :=
  if negb (path_exists w filename) then (false, attempts)
  else
    match client_upload_file w filename bucket filename with
    | Ok _ => (true, attempts ++ [filename])
    | Raise _ => (false, attempts ++ [filename])
    end.

(** [upload_data_files()] *)
Definition upload_data_files (w : snapshot) (attempts : list string)
  : list (string * bool) * list string :=
  foldl (λ '(results, attempts) filename,
    if path_exists w filename then
      let '(success, attempts) := upload_file w filename "jiwei-tos" attempts in
      (results ++ [(filename, success)], attempts)
    else (results ++ [(filename, false)], attempts))
    ([], attempts) [main_file; partial_file].

(** The dictionary [last_sizes] as [monitor_and_upload] creates it. *)
Definition initial_sizes : list (string * nat) :=
  [(main_file, 0); (partial_file, 0)].

(** One pass of [for filename in last_sizes] over the entries [entries]
    of the dictionary, each updated in place. *)
Fixpoint sweep (w : snapshot) (entries : list (string * nat))
    (attempts : list string) : list (string * nat) * list string :=
  match entries with
  | [] => ([], attempts)
  | (filename, last) :: rest =>
      let '(entry, attempts) :=
        if path_exists w filename then
          let current_size := path_getsize w filename in
          if (last <? current_size)%nat
          then ((filename, current_size),
                (upload_file w filename "jiwei-tos" attempts).2)
          else ((filename, last), attempts)
        else ((filename, last), attempts) in
      let '(rest, attempts) := sweep w rest attempts in
      (entry :: rest, attempts)
  end.

(** [monitor_and_upload()] after one pass of its endless loop for each
    snapshot of [seen]. *)
Definition monitor_and_upload (seen : list snapshot)
  : list (string * nat) * list string :=
  foldl (λ st w, sweep w st.1 st.2) (initial_sizes, []) seen.

(** The sizes of [filename] in the snapshots in which it exists. *)
Definition sizes_seen (filename : string) (seen : list snapshot) : list nat :=
  omap (λ w, if path_exists w filename
             then Some (path_getsize w filename) else None) seen.

End Uploader.

(** ** Substring lemmas *)

Lemma prefix_spec (p s : string) :
  String.prefix p s = true ↔ ∃ post, s = p +:+ post.
Proof.
  revert s. induction p as [|c p IH]; intros s; simpl.
  - destruct s; simpl; (split; [intros _; by eexists | done]).
  - destruct s as [|d s]; simpl.
    + split; [done | intros [post H]; discriminate].
    + destruct (Ascii.ascii_dec c d) as [->|Hne].
      * rewrite IH. split; intros [post H]; exists post.
        -- by rewrite H.
        -- by injection H.
      * split; [done | intros [post H]; by injection H].
Qed.

Lemma contains_spec (k s : string) : contains k s = true ↔ occurs k s.
Proof.
  unfold occurs. induction s as [|c s IH]; cbn [contains].
  - rewrite orb_false_r, prefix_spec. split.
    + intros [post H]. by exists "", post.
    + intros (pre & post & H). destruct pre; simpl in H; [by exists post|done].
  - rewrite orb_true_iff, prefix_spec, IH. split.
    + intros [[post H]|(pre & post & H)].
      * by exists "", post.
      * exists (String c pre), post. simpl. by rewrite H.
    + intros (pre & post & H). destruct pre as [|d pre]; simpl in H.
      * left. by exists post.
      * right. exists pre, post. by injection H.
Qed.

Lemma lower_app (a b : string) : lower (a +:+ b) = lower a +:+ lower b.
Proof. induction a as [|c a IH]; simpl; [done | by rewrite IH]. Qed.

Lemma lower_split (s a b : string) :
  lower s = a +:+ b → ∃ a' b', s = a' +:+ b' ∧ lower a' = a ∧ lower b' = b.
Proof.
  revert s. induction a as [|c a IH]; intros s H; simpl in H.
  - by exists "", s.
  - destruct s as [|d s]; simpl in H; [done|].
    injection H as Hc Hs. destruct (IH _ Hs) as (a' & b' & -> & <- & <-).
    exists (String d a'), b'. simpl. by rewrite Hc.
Qed.

Lemma occurs_lower (k s : string) : occurs k (lower s) ↔ occurs_nocase k s.
Proof.
  split.
  - intros (pre & post & H).
    apply lower_split in H as (pre' & rest & -> & <- & H).
    apply lower_split in H as (mid & post' & -> & <- & <-).
    by exists pre', mid, post'.
  - intros (pre & mid & post & -> & <-).
    exists (lower pre), (lower post). by rewrite !lower_app.
Qed.

Lemma any_in_spec (keywords : list string) (s : string) :
  any_in keywords s = true ↔ ∃ k, k ∈ keywords ∧ occurs k s.
Proof.
  unfold any_in. rewrite existsb_exists. split.
  - intros (k & Hk & H). exists k. by rewrite list_elem_of_In, <- contains_spec.
  - intros (k & Hk & H). exists k. by rewrite <- list_elem_of_In, contains_spec.
Qed.

Lemma any_in_false (keywords : list string) (s : string) :
  any_in keywords s = false ↔ ∀ k, k ∈ keywords → ¬ occurs k s.
Proof.
  rewrite <- not_true_iff_false, any_in_spec. split.
  - intros H k Hk Ho. apply H. eauto.
  - intros H (k & Hk & Ho). by eapply H.
Qed.

(** ** Claims about the content filter *)

(** C6.  [is_animal_category] is a function of its argument alone; it is
    false on every string in which an exclusion keyword occurs up to
    letter case, whatever topic keywords occur in it; and it is true
    exactly when some topic keyword occurs in the lowercased string and
    no exclusion keyword does. *)
Theorem is_animal_category_exclusion_dominates (category : string) :
  ((∃ k, k ∈ exclude_keywords ∧ occurs_nocase k category) →
     is_animal_category category = false)
  ∧ (is_animal_category category = true ↔
       (∃ k, k ∈ animal_keywords ∧ occurs k (lower category))
       ∧ ¬ (∃ k, k ∈ exclude_keywords ∧ occurs k (lower category))).
Proof.
  unfold is_animal_category. split.
  - intros (k & Hk & H). apply occurs_lower in H.
    assert (any_in exclude_keywords (lower category) = true) as ->
      by (apply any_in_spec; eauto).
    apply andb_false_r.
  - rewrite andb_true_iff, negb_true_iff, any_in_spec.
    rewrite <- not_true_iff_false, any_in_spec. done.
Qed.

(** ** The extractor returns the page it was asked for *)

Lemma improved_extract_url (e : env) (u : string) (r : record) :
  Improved.extract_page_info e u = Ok (Some r) → url r = u.
Proof.
  unfold Improved.extract_page_info, try_except, mbind, result_bind.
  intros H. repeat case_match; simplify_eq; done.
Qed.

Lemma original_extract_url (e : env) (u : string) (r : record) :
  Original.extract_page_info e u = Ok (Some r) → url r = u.
Proof.
  unfold Original.extract_page_info, mbind, result_bind.
  intros H. repeat case_match; simplify_eq; done.
Qed.

Lemma accepted_Some (x : result (option record)) (r : record) :
  accepted x = Some r → x = Ok (Some r) ∧ main_text r ≠ "".
Proof.
  unfold accepted. intros H. repeat case_match; simplify_eq.
  split; [done|]. by destruct (main_text r).
Qed.

(** The improved extractor has a handler around its whole body. *)
Lemma improved_extract_total (e : env) (u : string) :
  ∃ r, Improved.extract_page_info e u = Ok r.
Proof.
  unfold Improved.extract_page_info, try_except.
  case_match; eauto.
Qed.

Lemma improved_explore_total (e : env) (u : string) :
  ∃ r, Improved.get_subcategories_and_pages e u = Ok r.
Proof.
  unfold Improved.get_subcategories_and_pages, try_except.
  case_match; eauto.
Qed.

(** ** What one page costs the state *)

Lemma self_save_data (e : env) (name : string) (m : machine) :
  self (save_data e name m) = self m.
Proof. unfold save_data. by case_match. Qed.

Lemma calls_save_data (e : env) (name : string) (m : machine) :
  extractor_calls (save_data e name m) = extractor_calls m.
Proof. unfold save_data. by case_match. Qed.

Lemma improved_process_page_visited (e : env) (m : machine) (u : string) :
  u ∈ visited_pages (self m) → Improved.process_page e m u = m.
Proof. intros H. unfold Improved.process_page. by rewrite bool_decide_eq_true_2. Qed.

Lemma original_process_page_visited (e : env) (m : machine) (u : string) :
  u ∈ visited_pages (self m) → Original.process_page e m u = m.
Proof. intros H. unfold Original.process_page. by rewrite bool_decide_eq_true_2. Qed.

Lemma improved_process_page_new (e : env) (m : machine) (u : string) :
  u ∉ visited_pages (self m) →
  let m' := Improved.process_page e m u in
  visited_pages (self m') = visited_pages (self m) ∪ {[ u ]}
  ∧ visited_categories (self m') = visited_categories (self m)
  ∧ extractor_calls m' = extractor_calls m ++ [u]
  ∧ animal_data (self m') =
      animal_data (self m) ++ option_list (accepted (Improved.extract_page_info e u)).
Proof.
  intros H. unfold Improved.process_page. rewrite bool_decide_eq_false_2 by done.
  destruct (accepted _) as [r|]; simpl.
  - case_match; rewrite ?self_save_data, ?calls_save_data; done.
  - by rewrite app_nil_r.
Qed.

Lemma original_process_page_new (e : env) (m : machine) (u : string) :
  u ∉ visited_pages (self m) →
  let m' := Original.process_page e m u in
  visited_pages (self m') = visited_pages (self m) ∪ {[ u ]}
  ∧ visited_categories (self m') = visited_categories (self m)
  ∧ extractor_calls m' = extractor_calls m ++ [u]
  ∧ animal_data (self m') =
      animal_data (self m) ++ option_list (accepted (Original.extract_page_info e u)).
Proof.
  intros H. unfold Original.process_page. rewrite bool_decide_eq_false_2 by done.
  destruct (accepted _) as [r|]; simpl.
  - case_match; rewrite ?self_save_data, ?calls_save_data; done.
  - by rewrite app_nil_r.
Qed.

Lemma improved_accepted_url (e : env) (u : string) (r : record) :
  accepted (Improved.extract_page_info e u) = Some r → url r = u.
Proof. intros [H _]%accepted_Some. by eapply improved_extract_url. Qed.

Lemma original_accepted_url (e : env) (u : string) (r : record) :
  accepted (Original.extract_page_info e u) = Some r → url r = u.
Proof. intros [H _]%accepted_Some. by eapply original_extract_url. Qed.

(** ** The invariant along the transition system *)

Lemma crawl_ok_constructed (fs : gmap string file) : crawl_ok (constructed fs).
Proof. split; simpl; [constructor | set_solver]. Qed.

Lemma crawl_ok_self (m m' : machine) :
  self m' = self m → crawl_ok m → crawl_ok m'.
Proof. unfold crawl_ok. by intros ->. Qed.

Lemma files_ok_insert (fs : gmap string file) (name : string) (f : file) :
  files_ok fs →
  (∀ entries, f = JsonArray entries → NoDup (urls entries)) →
  files_ok (<[name := f]> fs).
Proof.
  intros Hfs Hf name' entries. rewrite lookup_insert.
  case_decide; [|by apply Hfs]. intros [= ->]. by apply Hf.
Qed.

Lemma files_ok_save_data (e : env) (name : string) (m : machine) :
  crawl_ok m → files_ok (files m) → files_ok (files (save_data e name m)).
Proof.
  intros [Hnd _] Hfs. unfold save_data. case_match; simpl; [|done|].
  - apply files_ok_insert; [done|]. by intros ? [= <-].
  - by apply files_ok_insert.
Qed.

Lemma crawl_ok_page (m m' : machine) (u : string) (acc : option record) :
  (∀ r, acc = Some r → url r = u) →
  u ∉ visited_pages (self m) →
  visited_pages (self m') = visited_pages (self m) ∪ {[ u ]} →
  animal_data (self m') = animal_data (self m) ++ option_list acc →
  crawl_ok m → crawl_ok m'.
Proof.
  intros Hacc Hu Hvp Hdata [Hnd Hsub]. unfold crawl_ok, urls.
  rewrite Hvp, Hdata, fmap_app. split.
  - apply NoDup_app. split_and!; [done| |].
    + intros x Hx Hx'. destruct acc as [r|]; simpl in Hx'; [|set_solver].
      apply list_elem_of_singleton in Hx' as ->. rewrite (Hacc r) in Hx by done.
      by apply Hu, Hsub.
    + destruct acc; simpl; [apply NoDup_singleton | constructor].
  - intros x [Hx|Hx]%elem_of_app; [set_solver|].
    destruct acc as [r|]; simpl in Hx; [|set_solver].
    apply list_elem_of_singleton in Hx as ->. rewrite (Hacc r) by done. set_solver.
Qed.

Lemma files_process_page_improved (e : env) (m : machine) (u : string) :
  crawl_ok (Improved.process_page e m u) → files_ok (files m) →
  files_ok (files (Improved.process_page e m u)).
Proof.
  unfold Improved.process_page. case_match; [done|].
  destruct (accepted _) as [r|]; simpl; [|done].
  case_match; [|done]. intros Hok Hfs.
  apply files_ok_save_data.
  - eapply crawl_ok_self; [|exact Hok]. by rewrite !self_save_data.
  - apply files_ok_save_data; [|done].
    eapply crawl_ok_self; [|exact Hok]. by rewrite !self_save_data.
Qed.

Lemma files_process_page_original (e : env) (m : machine) (u : string) :
  crawl_ok (Original.process_page e m u) → files_ok (files m) →
  files_ok (files (Original.process_page e m u)).
Proof.
  unfold Original.process_page. case_match; [done|].
  destruct (accepted _) as [r|]; simpl; [|done].
  case_match; [|done]. intros Hok Hfs.
  apply files_ok_save_data; [|done].
  eapply crawl_ok_self; [|exact Hok]. by rewrite !self_save_data.
Qed.

Lemma crawl_ok_init (fs : gmap string file) :
  files_ok fs → crawl_ok (Improved.init fs).
Proof.
  intros Hfs. unfold Improved.init, Improved.load_existing_data. simpl.
  destruct (fs !! partial_file) as [[entries|]|] eqn:Hf;
    [|apply crawl_ok_constructed..].
  split; simpl; [by eapply Hfs | set_solver].
Qed.

Lemma files_init (fs : gmap string file) : files (Improved.init fs) = fs.
Proof.
  unfold Improved.init, Improved.load_existing_data. simpl.
  by repeat case_match.
Qed.

Lemma engine_step_invariant (m m' : machine) :
  engine_step m m' →
  crawl_ok m ∧ files_ok (files m) → crawl_ok m' ∧ files_ok (files m').
Proof.
  intros Hstep [Hok Hfs]. destruct Hstep as
    [fs | m c Hc | m k | e m u | e m u | e name m].
  - rewrite files_init. split; [by apply crawl_ok_init | done].
  - done.
  - done.
  - assert (crawl_ok (Improved.process_page e m u)) as Hok'.
    { destruct (decide (u ∈ visited_pages (self m))) as [Hu|Hu].
      - by rewrite improved_process_page_visited.
      - destruct (improved_process_page_new e m u Hu) as (Hvp & _ & _ & Hdata).
        eapply crawl_ok_page; [apply improved_accepted_url|done..]. }
    split; [done | by apply files_process_page_improved].
  - assert (crawl_ok (Original.process_page e m u)) as Hok'.
    { destruct (decide (u ∈ visited_pages (self m))) as [Hu|Hu].
      - by rewrite original_process_page_visited.
      - destruct (original_process_page_new e m u Hu) as (Hvp & _ & _ & Hdata).
        eapply crawl_ok_page; [apply original_accepted_url|done..]. }
    split; [done | by apply files_process_page_original].
  - split; [|by apply files_ok_save_data].
    eapply crawl_ok_self; [|done]. apply self_save_data.
Qed.

Lemma reachable_invariant (m : machine) :
  reachable m → crawl_ok m ∧ files_ok (files m).
Proof.
  induction 1 as [| m m' _ IH Hstep | m _ [_ IH]].
  - split; [apply crawl_ok_constructed|]. intros name entries. simpl. by rewrite lookup_empty.
  - by eapply engine_step_invariant.
  - split; [apply crawl_ok_constructed | done].
Qed.

Lemma engine_step_monotone (m m' : machine) :
  engine_step m m' →
  visited_pages (self m) ⊆ visited_pages (self m')
  ∧ visited_categories (self m) ⊆ visited_categories (self m').
Proof.
  destruct 1 as [fs | m c Hc | m k | e m u | e m u | e name m].
  - simpl. set_solver.
  - simpl. set_solver.
  - done.
  - destruct (decide (u ∈ visited_pages (self m))) as [Hu|Hu].
    + by rewrite improved_process_page_visited.
    + destruct (improved_process_page_new e m u Hu) as (-> & -> & _). set_solver.
  - destruct (decide (u ∈ visited_pages (self m))) as [Hu|Hu].
    + by rewrite original_process_page_visited.
    + destruct (original_process_page_new e m u Hu) as (-> & -> & _). set_solver.
  - by rewrite self_save_data.
Qed.

(** ** Every run of the two programs is a path of the transition system *)

Lemma reachable_pages_improved (e : env) (l : list string) (m : machine) :
  reachable m → reachable (foldl (Improved.process_page e) m l).
Proof.
  revert m. induction l as [|u l IH]; intros m Hm; simpl; [done|].
  apply IH. eapply reach_step; [done | constructor].
Qed.

Lemma reachable_pages_original (e : env) (l : list string) (m : machine) :
  reachable m → reachable (foldl (Original.process_page e) m l).
Proof.
  revert m. induction l as [|u l IH]; intros m Hm; simpl; [done|].
  apply IH. eapply reach_step; [done | constructor].
Qed.

Lemma reachable_visit_category (e : env) (sch : schedule) (q : gset string)
    (m : machine) (c : string) :
  reachable m → reachable (Improved.visit_category e sch q m c).2.
Proof.
  intros Hm. unfold Improved.visit_category.
  case_bool_decide as Hc; [done|].
  assert (reachable (enter_category m c)) as Hm'
    by (eapply reach_step; [done | by constructor]).
  destruct (Improved.get_subcategories_and_pages e c) as [[subs pages]|]; simpl;
    [by apply reachable_pages_improved | done].
Qed.

Lemma reachable_scrape_loop (e : env) (sch : schedule) (fuel : nat)
    (q q' : gset string) (m m' : machine) :
  Improved.scrape_loop e sch fuel q m = Some (q', m') →
  reachable m → reachable m'.
Proof.
  revert q m. induction fuel as [|fuel IH]; intros q m; simpl; [done|].
  case_decide; [by intros [= _ <-]|].
  destruct (Improved.visit_category _ _ _ _ _) as [q1 m1] eqn:Hv.
  intros Hloop Hm. eapply IH; [done|].
  pose proof (reachable_visit_category e sch (q ∖ {[pop sch q]}) m (pop sch q) Hm)
    as Hr. by rewrite Hv in Hr.
Qed.

Lemma reachable_improved_main (e : env) (sch : schedule) (fuel : nat)
    (fs : gmap string file) (m' : machine) :
  Improved.main e sch fuel fs = Some m' →
  reachable (constructed fs) → reachable m'.
Proof.
  unfold Improved.main, Improved.scrape_animals.
  destruct (Improved.scrape_loop _ _ _ _ _) as [[q m]|] eqn:Hloop; [|done].
  intros [= <-] Hfs. eapply reach_step; [|constructor].
  eapply reachable_scrape_loop; [done|].
  eapply reach_step; [done | constructor].
Qed.

Lemma reachable_collect_category (e : env) (q p : gset string)
    (m : machine) (c : string) :
  reachable m → reachable (Original.collect_category e q p m c).2.
Proof.
  intros Hm. unfold Original.collect_category.
  case_bool_decide as Hc; [done|].
  assert (reachable (enter_category m c)) as Hm'
    by (eapply reach_step; [done | by constructor]).
  destruct (Original.get_subcategories_and_pages e c) as [[subs pages]|]; simpl.
  - case_match; simpl; [|by eapply reach_step; [|constructor]].
    eapply reach_step; [|constructor]. by eapply reach_step; [|constructor].
  - case_match; simpl; [|done]. by eapply reach_step; [|constructor].
Qed.

Lemma reachable_collect_loop (e : env) (sch : schedule) (fuel : nat)
    (q p q' p' : gset string) (m m' : machine) :
  Original.collect_loop e sch fuel q p m = Some (q', p', m') →
  reachable m → reachable m'.
Proof.
  revert q p m. induction fuel as [|fuel IH]; intros q p m; simpl; [done|].
  case_decide; [by intros [= _ _ <-]|].
  destruct (Original.collect_category _ _ _ _ _) as [[q1 p1] m1] eqn:Hv.
  intros Hloop Hm. eapply IH; [done|].
  pose proof (reachable_collect_category e (q ∖ {[pop sch q]}) p m (pop sch q) Hm)
    as Hr. by rewrite Hv in Hr.
Qed.

Lemma reachable_original_main (e : env) (sch : schedule) (fuel : nat)
    (fs : gmap string file) (m' : machine) :
  Original.main e sch fuel fs = Some m' →
  reachable (constructed fs) → reachable m'.
Proof.
  unfold Original.main, Original.scrape_animals.
  destruct (Original.collect_loop _ _ _ _ _ _) as [[[q p] m]|] eqn:Hloop; [|done].
  intros [= <-] Hfs. eapply reach_step; [|constructor].
  apply reachable_pages_original. by eapply reachable_collect_loop.
Qed.

(** ** The log of extractor calls *)

Lemma calls_invariant (m : machine) :
  reachable m →
  NoDup (extractor_calls m)
  ∧ ∀ u, u ∈ extractor_calls m → u ∈ visited_pages (self m).
Proof.
  induction 1 as [| m m' _ [IHnd IHsub] Hstep | m _ _].
  - split; simpl; [constructor | set_solver].
  - destruct Hstep as [fs | m c Hc | m k | e m u | e m u | e name m].
    + unfold Improved.init, Improved.load_existing_data; simpl.
      repeat case_match; simpl; (split; [constructor | set_solver]).
    + done.
    + done.
    + destruct (decide (u ∈ visited_pages (self m))) as [Hu|Hu].
      * by rewrite improved_process_page_visited.
      * destruct (improved_process_page_new e m u Hu) as (-> & _ & -> & _).
        split; [apply NoDup_app; split_and!; [done| |apply NoDup_singleton]|].
        -- intros x Hx ->%list_elem_of_singleton. by apply Hu, IHsub.
        -- intros x [Hx| ->%list_elem_of_singleton]%elem_of_app; set_solver.
    + destruct (decide (u ∈ visited_pages (self m))) as [Hu|Hu].
      * by rewrite original_process_page_visited.
      * destruct (original_process_page_new e m u Hu) as (-> & _ & -> & _).
        split; [apply NoDup_app; split_and!; [done| |apply NoDup_singleton]|].
        -- intros x Hx ->%list_elem_of_singleton. by apply Hu, IHsub.
        -- intros x [Hx| ->%list_elem_of_singleton]%elem_of_app; set_solver.
    + by rewrite self_save_data, calls_save_data.
  - split; simpl; [constructor | set_solver].
Qed.

(** ** Claims about deduplication and the state invariant *)

(** C2.  In every state the engine can reach, no URL has two records and
    no URL was handed to the extractor twice; and offering a URL that is
    already in [visited_pages] changes nothing at all: the extractor is
    not called and no record is appended, in either variant. *)
Theorem visited_page_not_extracted_again (m : machine) :
  reachable m →
  NoDup (urls (animal_data (self m)))
  ∧ NoDup (extractor_calls m)
  ∧ ∀ e page_url, page_url ∈ visited_pages (self m) →
      Improved.process_page e m page_url = m
      ∧ Original.process_page e m page_url = m.
Proof.
  intros Hm. split_and!.
  - by apply reachable_invariant.
  - by apply calls_invariant.
  - intros e u Hu. split.
    + by apply improved_process_page_visited.
    + by apply original_process_page_visited.
Qed.

Lemma run_reachable (e : env) (fs : gmap string file) :
  is_Some (Improved.main e elements_schedule 10 fs) →
  reachable (constructed fs) → reachable (Sample.run e fs).
Proof.
  intros [m Hm]. unfold Sample.run. rewrite Hm. simpl.
  by eapply reachable_improved_main.
Qed.

Lemma savanna_run_reachable : reachable Sample.savanna_run.
Proof. apply run_reachable; [compute_done | apply reach_fresh]. Qed.

Lemma visited_page_not_extracted_again_witness :
  reachable Sample.savanna_run
  ∧ NoDup (urls (animal_data (self Sample.savanna_run)))
  ∧ NoDup (extractor_calls Sample.savanna_run)
  ∧ ∀ e page_url, page_url ∈ visited_pages (self Sample.savanna_run) →
      Improved.process_page e Sample.savanna_run page_url = Sample.savanna_run
      ∧ Original.process_page e Sample.savanna_run page_url = Sample.savanna_run.
Proof.
  split; [exact savanna_run_reachable|].
  exact (visited_page_not_extracted_again _ savanna_run_reachable).
Defined.

(** C4.  In every reachable state each URL of a record is in
    [visited_pages], and no action of the engine (entering a category,
    exploring it, extracting a page, writing a checkpoint, rehydrating
    from one) removes an element from [visited_pages] or from
    [visited_categories]. *)
Theorem crawl_state_invariant (m : machine) :
  reachable m →
  (∀ u, u ∈ urls (animal_data (self m)) → u ∈ visited_pages (self m))
  ∧ ∀ m', engine_step m m' →
      visited_pages (self m) ⊆ visited_pages (self m')
      ∧ visited_categories (self m) ⊆ visited_categories (self m').
Proof.
  intros Hm. split.
  - by apply reachable_invariant.
  - intros m'. apply engine_step_monotone.
Qed.

Lemma crawl_state_invariant_witness :
  reachable Sample.savanna_run
  ∧ (∀ u, u ∈ urls (animal_data (self Sample.savanna_run)) →
          u ∈ visited_pages (self Sample.savanna_run))
  ∧ ∀ m', engine_step Sample.savanna_run m' →
      visited_pages (self Sample.savanna_run) ⊆ visited_pages (self m')
      ∧ visited_categories (self Sample.savanna_run)
        ⊆ visited_categories (self m').
Proof.
  split; [exact savanna_run_reachable|].
  exact (crawl_state_invariant _ savanna_run_reachable).
Defined.

(** ** Claims about the link filters and the two explorers *)

Lemma is_valid_article_spec (u : string) :
  is_valid_article u = true ↔ ∀ p, p ∈ invalid_patterns → ¬ occurs p u.
Proof. unfold is_valid_article. by rewrite negb_true_iff, any_in_false. Qed.

(** C9, as the code has it.  [is_valid_article] admits a URL exactly when
    none of the seven strings "Category:", "File:", "Template:", "Help:",
    "Wikipedia:", "Portal:", "Special:" occurs in it, letter case
    included; "Wikipedia:" is how the site names its project namespace. *)
Theorem is_valid_article_excludes_seven (u : string) :
  is_valid_article u = true ↔
    ¬ occurs "Category:" u ∧ ¬ occurs "File:" u ∧ ¬ occurs "Template:" u
    ∧ ¬ occurs "Help:" u ∧ ¬ occurs "Wikipedia:" u ∧ ¬ occurs "Portal:" u
    ∧ ¬ occurs "Special:" u.
Proof.
  rewrite is_valid_article_spec. unfold invalid_patterns. split.
  - intros H. split_and!; apply H; set_solver.
  - intros (?&?&?&?&?&?&?) p Hp.
    repeat (apply elem_of_cons in Hp as [->|Hp]; [done|]).
    by apply elem_of_nil in Hp.
Qed.

(** C9, as stated, fails: a URL that carries the marker [project_marker]
    is admitted as a candidate page. *)
Lemma is_valid_article_admits_project :
  occurs project_marker "/wiki/Project:About"
  ∧ is_valid_article "/wiki/Project:About" = true.
Proof. split; [by exists "/wiki/", "About" | reflexivity]. Qed.

Lemma foldl_union {A : Type} (f : gset string → A → gset string)
    (l : list A) (X : gset string) :
  (∀ Y a, f Y a = Y ∪ f ∅ a) → foldl f X l = X ∪ foldl f ∅ l.
Proof.
  intros Hf. revert X. induction l as [|a l IH]; intros X; simpl.
  - by rewrite (right_id_L ∅ (∪)).
  - rewrite (IH (f X a)), (IH (f ∅ a)), (Hf X a). by rewrite (assoc_L (∪)).
Qed.

Lemma scan_page_links_union (soup : node) (pages : gset string) :
  scan_page_links soup pages = pages ∪ scan_page_links soup ∅.
Proof.
  unfold scan_page_links. destruct (find_by_id _ _ _) as [pages_div|].
  - apply foldl_union. intros Y href. case_match.
    + by rewrite (left_id_L ∅ (∪)).
    + by rewrite (right_id_L ∅ (∪)).
  - by rewrite (right_id_L ∅ (∪)).
Qed.

Lemma merge_next_pages_spec (e : env) (l : list string)
    (found : gset string * gset string) (u : string) :
  u ∈ (foldl (Original.merge_next_page e) found l).2 ↔
    u ∈ found.2
    ∨ ∃ next_page_url next_soup,
        next_page_url ∈ l
        ∧ get_page_content e next_page_url = Ok next_soup
        ∧ u ∈ scan_page_links next_soup ∅.
Proof.
  revert found. induction l as [|n l IH]; intros found; cbn [foldl].
  - split; [by left|]. intros [?|(? & ? & []%elem_of_nil & _)]. done.
  - rewrite IH. unfold Original.merge_next_page.
    destruct (get_page_content e n) as [next_soup|x] eqn:Hn; cbn [fst snd].
    + rewrite scan_page_links_union, elem_of_union. split.
      * intros [[?|?]|(n' & d & ? & ? & ?)]; [by left| |].
        -- right. exists n, next_soup. rewrite elem_of_cons. eauto.
        -- right. exists n', d. rewrite elem_of_cons. eauto.
      * intros [?|(n' & d & [->|?]%elem_of_cons & Hn' & ?)]; [by left; left| |].
        -- left. right. congruence.
        -- right. eauto.
    + split.
      * intros [?|(n' & d & ? & ? & ?)]; [by left|].
        right. exists n', d. rewrite elem_of_cons. eauto.
      * intros [?|(n' & d & [->|?]%elem_of_cons & Hn' & ?)]; [by left| |].
        -- congruence.
        -- right. eauto.
Qed.

(** The original explorer returns the member links of the first page
    together with those of every continuation page it could fetch, the
    same scan being applied to each. *)
Lemma original_explorer_merges (e : env) (url : string) (soup : node) :
  get_page_content e url = Ok soup →
  ∃ subcategories pages,
    Original.get_subcategories_and_pages e url = Ok (subcategories, pages)
    ∧ ∀ u, u ∈ pages ↔
        u ∈ scan_page_links soup ∅
        ∨ ∃ next_page_url next_soup,
            next_page_url ∈ Original.next_links soup
            ∧ get_page_content e next_page_url = Ok next_soup
            ∧ u ∈ scan_page_links next_soup ∅.
Proof.
  intros Hsoup. unfold Original.get_subcategories_and_pages.
  rewrite Hsoup. unfold mbind, result_bind.
  destruct (foldl _ _ _) as [subs pages] eqn:Hfold.
  exists subs, pages. split; [done|]. intros u.
  pose proof (merge_next_pages_spec e (Original.next_links soup)
    (scan_category_links soup
       ["mw-subcategories"; "mw-normal-catlinks"; "mw-hidden-catlinks"] ∅,
     scan_page_links soup ∅) u) as H.
  rewrite Hfold in H. exact H.
Qed.

(** C7.  On a category whose first page lists A and B and links to a
    continuation page listing C, the improved explorer returns A and B
    only; the continuation is never fetched.  The original explorer
    returns A, B and C on the same site. *)
Theorem improved_explorer_skips_continuation :
  Improved.get_subcategories_and_pages Sample.paged Sample.birds_url
    = Ok (∅, {[ base_url +:+ "/wiki/A"; base_url +:+ "/wiki/B" ]})
  ∧ Original.get_subcategories_and_pages Sample.paged Sample.birds_url
    = Ok (∅, {[ base_url +:+ "/wiki/A"; base_url +:+ "/wiki/B";
                base_url +:+ "/wiki/C" ]}).
Proof. split; compute_done. Qed.

(** C5.  When the fetch raises, the original [extract_page_info] lets the
    exception through, where the improved one returns [None]. *)
Theorem original_extractor_raises :
  Original.extract_page_info Sample.offline (base_url +:+ "/wiki/Lion")
    = Raise FetchError
  ∧ Improved.extract_page_info Sample.offline (base_url +:+ "/wiki/Lion")
    = Ok None.
Proof. split; reflexivity. Qed.

(** The original extractor raises whenever the fetch does. *)
Lemma original_extract_fetch_error (e : env) (u : string) (x : exn) :
  get_page_content e u = Raise x → Original.extract_page_info e u = Raise x.
Proof. intros H. unfold Original.extract_page_info. by rewrite H. Qed.

(** ** Claims about checkpoints and resumption *)

Lemma elements_schedule_ok : schedule_ok elements_schedule.
Proof.
  split; [|done]. intros q Hq. simpl.
  destruct (elements q) as [|x l] eqn:Hel.
  - by apply elements_empty_inv, leibniz_equiv in Hel.
  - simpl. apply elem_of_elements. rewrite Hel. by left.
Qed.

Lemma main_run (e : env) (fs : gmap string file) :
  is_Some (Improved.main e elements_schedule 10 fs) →
  Improved.main e elements_schedule 10 fs = Some (Sample.run e fs).
Proof. intros [m Hm]. unfold Sample.run. by rewrite Hm. Qed.

Lemma herd_run_reachable : reachable Sample.herd_run.
Proof. apply run_reachable; [compute_done | apply reach_fresh]. Qed.

Lemma init_loaded (fs : gmap string file) (entries : list record) :
  fs !! partial_file = Some (JsonArray entries) →
  self (Improved.init fs) =
    {| visited_pages := list_to_set (urls entries); visited_categories := ∅;
       animal_data := entries; total_categories_processed := 0;
       total_pages_found := 0; total_pages_processed := 0 |}
  ∧ extractor_calls (Improved.init fs) = [].
Proof.
  intros H. unfold Improved.init, Improved.load_existing_data. simpl.
  by rewrite H.
Qed.

Lemma init_visited_categories (fs : gmap string file) :
  visited_categories (self (Improved.init fs)) = ∅
  ∧ total_categories_processed (self (Improved.init fs)) = 0.
Proof.
  unfold Improved.init, Improved.load_existing_data. simpl.
  by repeat case_match.
Qed.

Lemma size_urls (entries : list record) :
  NoDup (urls entries) →
  size (list_to_set (urls entries) : gset string) = length entries.
Proof.
  intros H. rewrite size_list_to_set by done. unfold urls.
  by rewrite length_fmap.
Qed.

(** The final [save_data()] of [main] writes [main_file], which
    [load_existing_data] never reads. *)
Lemma final_save_not_reloaded (e : env) (m : machine) :
  Improved.init (files (save_data e main_file m)) = 
  let m' := Improved.init (files m) in
  {| self := self m'; files := files (save_data e main_file m);
     extractor_calls := extractor_calls m' |}.
Proof.
  unfold Improved.init, Improved.load_existing_data, save_data. simpl.
  destruct (write_outcome e main_file); simpl;
    rewrite ?lookup_insert_ne by done; by repeat case_match.
Qed.

(** C3.  Take any state the engine can reach, holding K records, write it
    with [save_data] to the checkpoint path, the write succeeding, and
    start a new scraper on the resulting files: its [visited_pages] has
    exactly K elements and its [animal_data] is the saved sequence, record
    for record (hence field for field).  Its [visited_categories] is
    empty: neither it nor the frontier is stored. *)
Theorem checkpoint_round_trip (e : env) (m : machine) :
  reachable m →
  write_outcome e partial_file = Written →
  let m' := Improved.init (files (save_data e partial_file m)) in
  size (visited_pages (self m')) = length (animal_data (self m))
  ∧ animal_data (self m') = animal_data (self m)
  ∧ visited_categories (self m') = ∅.
Proof.
  intros Hm Hw. simpl.
  destruct (init_loaded (files (save_data e partial_file m))
              (animal_data (self m))) as [-> _].
  { unfold save_data. rewrite Hw. simpl. apply lookup_insert_eq. }
  simpl. split_and!; [|done..].
  apply size_urls. by apply reachable_invariant.
Qed.

Lemma checkpoint_round_trip_witness :
  reachable Sample.savanna_run
  ∧ write_outcome Sample.savanna partial_file = Written
  ∧ let m' := Improved.init
                (files (save_data Sample.savanna partial_file Sample.savanna_run)) in
    size (visited_pages (self m')) = length (animal_data (self Sample.savanna_run))
    ∧ animal_data (self m') = animal_data (self Sample.savanna_run)
    ∧ visited_categories (self m') = ∅.
Proof.
  split; [exact savanna_run_reachable|]. split; [reflexivity|].
  exact (checkpoint_round_trip Sample.savanna Sample.savanna_run
           savanna_run_reachable eq_refl).
Defined.

(** C10.  Let a checkpoint file written at any point of any earlier run
    hold [entries].  The scraper started on it has as [visited_pages]
    exactly the URLs of [entries] and holds one record per URL; a URL
    among them, when offered, is skipped without calling the extractor;
    any other URL, visited before or not, is handed to the extractor when
    offered.  The state that wrote the file, like every reachable state
    over any number of runs, holds one record per URL too. *)
Theorem resume_skips_recorded_pages_only (m : machine) (entries : list record) :
  reachable m →
  files m !! partial_file = Some (JsonArray entries) →
  let m' := Improved.init (files m) in
  reachable m'
  ∧ visited_pages (self m') = list_to_set (urls entries)
  ∧ animal_data (self m') = entries
  ∧ NoDup (urls (animal_data (self m')))
  ∧ NoDup (urls (animal_data (self m)))
  ∧ (∀ e u, u ∈ urls entries → Improved.process_page e m' u = m')
  ∧ (∀ e u, u ∉ urls entries →
       extractor_calls (Improved.process_page e m' u) = [u]).
Proof.
  intros Hm Hf. simpl.
  assert (reachable (Improved.init (files m))) as Hm'.
  { eapply reach_step; [by apply reach_restart | constructor]. }
  destruct (init_loaded _ _ Hf) as [Hself Hcalls].
  split_and!.
  - done.
  - by rewrite Hself.
  - by rewrite Hself.
  - by apply reachable_invariant.
  - by apply reachable_invariant.
  - intros e u Hu. apply improved_process_page_visited.
    rewrite Hself. simpl. by apply elem_of_list_to_set.
  - intros e u Hu.
    destruct (improved_process_page_new e (Improved.init (files m)) u)
      as (_ & _ & -> & _).
    + rewrite Hself. simpl. by rewrite elem_of_list_to_set.
    + by rewrite Hcalls.
Qed.

Lemma herd_checkpoint :
  files Sample.herd_run !! partial_file
  = Some (JsonArray (animal_data (self Sample.herd_run))).
Proof. compute_done. Qed.

Lemma resume_skips_recorded_pages_only_witness :
  reachable Sample.herd_run
  ∧ files Sample.herd_run !! partial_file
    = Some (JsonArray (animal_data (self Sample.herd_run)))
  ∧ let entries := animal_data (self Sample.herd_run) in
    let m' := Improved.init (files Sample.herd_run) in
    reachable m'
    ∧ visited_pages (self m') = list_to_set (urls entries)
    ∧ animal_data (self m') = entries
    ∧ NoDup (urls (animal_data (self m')))
    ∧ NoDup (urls (animal_data (self Sample.herd_run)))
    ∧ (∀ e u, u ∈ urls entries → Improved.process_page e m' u = m')
    ∧ (∀ e u, u ∉ urls entries →
         extractor_calls (Improved.process_page e m' u) = [u]).
Proof.
  split; [exact herd_run_reachable|]. split; [exact herd_checkpoint|].
  exact (resume_skips_recorded_pages_only Sample.herd_run _
           herd_run_reachable herd_checkpoint).
Defined.

Lemma improved_process_page_categories (e : env) (m : machine) (u : string) :
  visited_categories (self (Improved.process_page e m u))
    = visited_categories (self m)
  ∧ total_categories_processed (self (Improved.process_page e m u))
    = total_categories_processed (self m).
Proof.
  unfold Improved.process_page. case_match; [done|].
  destruct (accepted _); simpl; [|done].
  case_match; by rewrite ?self_save_data.
Qed.

Lemma improved_pages_categories (e : env) (l : list string) (m : machine) :
  visited_categories (self (foldl (Improved.process_page e) m l))
    = visited_categories (self m)
  ∧ total_categories_processed (self (foldl (Improved.process_page e) m l))
    = total_categories_processed (self m).
Proof.
  revert m. induction l as [|u l IH]; intros m; simpl; [done|].
  destruct (IH (Improved.process_page e m u)) as [-> ->].
  apply improved_process_page_categories.
Qed.

(** C8, as the code has it.  Whatever files the scraper starts on, its
    [visited_categories] is empty after [load_existing_data]; the frontier
    of [scrape_animals] is the start category, unconditionally; and the
    first turn of the loop explores that category, which leaves it as the
    one visited category. *)
Theorem resume_explores_start_again (e : env) (sch : schedule) (fuel : nat)
    (fs : gmap string file) (start_url : string) :
  schedule_ok sch →
  let m0 := Improved.init fs in
  let first := Improved.visit_category e sch ∅ m0 start_url in
  visited_categories (self m0) = ∅
  ∧ Improved.scrape_animals e sch (S fuel) start_url m0
    = Improved.scrape_loop e sch fuel first.1 first.2
  ∧ visited_categories (self first.2) = {[ start_url ]}
  ∧ total_categories_processed (self first.2) = 1.
Proof.
  intros [Hpop _]. simpl.
  destruct (init_visited_categories fs) as [Hvc Hn].
  assert (pop sch {[start_url]} = start_url) as Hstart.
  { specialize (Hpop {[start_url]}). set_solver. }
  split_and!.
  - done.
  - unfold Improved.scrape_animals. simpl.
    rewrite decide_False by set_solver. rewrite Hstart.
    replace ({[start_url]} ∖ {[start_url]} : gset string) with (∅ : gset string)
      by set_solver.
    by destruct (Improved.visit_category _ _ _ _ _).
  - unfold Improved.visit_category. rewrite bool_decide_eq_false_2 by set_solver.
    destruct (Improved.get_subcategories_and_pages e start_url) as [[subs pages]|];
      simpl.
    + destruct (improved_pages_categories e (iter sch pages)
                  (enter_category (Improved.init fs) start_url)) as [-> _].
      simpl. rewrite Hvc. set_solver.
    + rewrite Hvc. set_solver.
  - unfold Improved.visit_category. rewrite bool_decide_eq_false_2 by set_solver.
    destruct (Improved.get_subcategories_and_pages e start_url) as [[subs pages]|];
      simpl.
    + destruct (improved_pages_categories e (iter sch pages)
                  (enter_category (Improved.init fs) start_url)) as [_ ->].
      simpl. by rewrite Hn.
    + by rewrite Hn.
Qed.

Lemma resume_explores_start_again_witness :
  schedule_ok elements_schedule
  ∧ let m0 := Improved.init (files Sample.herd_run) in
    let first :=
      Improved.visit_category Sample.herd elements_schedule ∅ m0
        Sample.start_url in
    visited_categories (self m0) = ∅
    ∧ Improved.scrape_animals Sample.herd elements_schedule 10
        Sample.start_url m0
      = Improved.scrape_loop Sample.herd elements_schedule 9 first.1 first.2
    ∧ visited_categories (self first.2) = {[ Sample.start_url ]}
    ∧ total_categories_processed (self first.2) = 1.
Proof.
  split; [exact elements_schedule_ok|].
  exact (resume_explores_start_again Sample.herd elements_schedule 9
           (files Sample.herd_run) Sample.start_url elements_schedule_ok).
Defined.

(** C8, as stated, fails.  A first run visits the start category and
    leaves a checkpoint file; the scraper started on that file has no
    visited category, and its run explores the start category once more
    instead of ending at once. *)
Lemma resume_forgets_visited_categories :
  is_Some (files Sample.herd_run !! partial_file)
  ∧ Sample.start_url ∈ visited_categories (self Sample.herd_run)
  ∧ visited_categories (self Sample.herd_resumed) = ∅
  ∧ Improved.main Sample.herd elements_schedule 10 (files Sample.herd_run)
    = Some Sample.herd_second_run
  ∧ total_categories_processed (self Sample.herd_second_run) = 1
  ∧ extractor_calls Sample.herd_second_run = [].
Proof.
  split_and!; [compute_done..| |compute_done|compute_done].
  apply main_run. compute_done.
Qed.

(** ** Folding the page loop *)

Lemma iter_set (sch : schedule) (s : gset string) :
  schedule_ok sch → list_to_set (iter sch s) = s.
Proof.
  intros [_ Hiter]. apply set_eq. intros x.
  by rewrite elem_of_list_to_set, (Hiter s), elem_of_elements.
Qed.

Lemma recorded_page (m m' : machine) (u : string) (acc : option record) :
  (∀ r, acc = Some r → url r = u) →
  animal_data (self m') = animal_data (self m) ++ option_list acc →
  recorded m' = recorded m ∪ (if decide (is_Some acc) then {[ u ]} else ∅).
Proof.
  intros Hacc Hdata. unfold recorded, urls. rewrite Hdata, fmap_app.
  rewrite list_to_set_app_L. destruct acc as [r|]; case_decide as Hd; simpl.
  - rewrite (Hacc r) by done. set_solver.
  - exfalso. apply Hd. by eexists.
  - by destruct Hd.
  - set_solver.
Qed.

Lemma filter_step (acc : string → option record) (R VP L : gset string)
    (u : string) :
  u ∉ VP →
  R ∪ (if decide (is_Some (acc u)) then {[ u ]} else ∅)
    ∪ filter (λ u, is_Some (acc u)) (L ∖ (VP ∪ {[ u ]}))
  = R ∪ filter (λ u, is_Some (acc u)) (({[ u ]} ∪ L) ∖ VP).
Proof.
  intros Hu. apply set_eq. intros x. set_unfold.
  destruct (decide (x = u)) as [->|Hne]; case_decide; set_unfold; try tauto.
  all: intuition congruence.
Qed.

Section page_loop.
Variable f : machine → string → machine.
Variable acc : string → option record.
Hypothesis f_visited : ∀ m u, u ∈ visited_pages (self m) → f m u = m.
Hypothesis f_new : ∀ m u,
  u ∉ visited_pages (self m) →
  visited_pages (self (f m u)) = visited_pages (self m) ∪ {[ u ]}
  ∧ visited_categories (self (f m u)) = visited_categories (self m)
  ∧ animal_data (self (f m u)) = animal_data (self m) ++ option_list (acc u).
Hypothesis acc_url : ∀ u r, acc u = Some r → url r = u.

Lemma fold_pages (l : list string) (m : machine) :
  crawl_ok m →
  let m' := foldl f m l in
  crawl_ok m'
  ∧ visited_pages (self m') = visited_pages (self m) ∪ list_to_set l
  ∧ visited_categories (self m') = visited_categories (self m)
  ∧ recorded m' =
      recorded m ∪ filter (λ u, is_Some (acc u))
                     (list_to_set l ∖ visited_pages (self m)).
Proof.
  revert m. induction l as [|u l IH]; intros m Hok; simpl.
  { split_and!; [done| | done |]; set_solver. }
  destruct (decide (u ∈ visited_pages (self m))) as [Hu|Hu].
  - rewrite f_visited by done.
    destruct (IH m Hok) as (Hok' & Hvp & Hvc & Hrec).
    split_and!; [done| | done |].
    + rewrite Hvp. set_solver.
    + rewrite Hrec. f_equal. apply set_eq. intros x.
      rewrite !elem_of_filter. set_solver.
  - destruct (f_new m u Hu) as (Hvp1 & Hvc1 & Hdata1).
    assert (crawl_ok (f m u)) as Hok1
      by (eapply crawl_ok_page; [apply acc_url|done..]).
    destruct (IH (f m u) Hok1) as (Hok' & Hvp & Hvc & Hrec).
    split_and!; [done| | congruence |].
    + rewrite Hvp, Hvp1. set_solver.
    + rewrite Hrec, Hvp1.
      rewrite (recorded_page m (f m u) u (acc u)) by (done || apply acc_url).
      by apply filter_step.
Qed.
End page_loop.

Lemma count_records (m0 m' : machine) (X : gset string) :
  crawl_ok m0 → crawl_ok m' →
  X ## visited_pages (self m0) →
  recorded m' = recorded m0 ∪ X →
  length (animal_data (self m')) = length (animal_data (self m0)) + size X.
Proof.
  intros [Hnd0 Hsub0] [Hnd' _] Hdisj Hrec.
  rewrite <- (size_urls _ Hnd'), <- (size_urls _ Hnd0).
  fold (recorded m') (recorded m0). rewrite Hrec.
  apply size_union. intros x Hx HX. apply (Hdisj x HX), Hsub0.
  by apply elem_of_list_to_set in Hx.
Qed.

(** ** The crawl loop of the improved scraper *)

Lemma discovered_insert (pages : string → gset string) (X X0 : gset string)
    (c : string) :
  c ∉ X → X0 ⊆ X →
  Graph.discovered pages ((X ∪ {[ c ]}) ∖ X0)
  = Graph.discovered pages (X ∖ X0) ∪ pages c.
Proof.
  intros Hc Hsub. unfold Graph.discovered. apply set_eq. intros x.
  rewrite elem_of_union, !elem_of_set_bind. split.
  - intros (y & Hy & Hx). destruct (decide (y = c)) as [->|Hne]; [by right|].
    left. exists y. set_solver.
  - intros [(y & Hy & Hx)|Hx]; [exists y | exists c]; set_solver.
Qed.

Lemma filter_merge (v : variant) (e : env) (F P VP0 : gset string) :
  filter (accepts v e) (F ∖ VP0) ∪ filter (accepts v e) (P ∖ (VP0 ∪ F))
  = filter (accepts v e) ((F ∪ P) ∖ VP0).
Proof.
  apply set_eq. intros x. set_unfold.
  destruct (decide (x ∈ F)); tauto.
Qed.

Lemma size_remove (X : gset string) (c : string) :
  c ∈ X → size (X ∖ {[ c ]}) + 1 = size X.
Proof.
  intros Hc.
  pose proof (size_union ({[ c ]} : gset string) (X ∖ {[ c ]})) as Hs.
  rewrite <- union_difference_singleton_L, size_singleton in Hs by done.
  rewrite Hs by set_solver. lia.
Qed.

Lemma crawl_ok_enter (m : machine) (c : string) :
  crawl_ok m → crawl_ok (enter_category m c).
Proof. done. Qed.

Lemma improved_visit_skip (e : env) (sch : schedule) (q : gset string)
    (m : machine) (c : string) :
  c ∈ visited_categories (self m) →
  Improved.visit_category e sch q m c = (q, m).
Proof.
  intros H. unfold Improved.visit_category. by rewrite bool_decide_eq_true_2.
Qed.

Lemma improved_visit_new (e : env) (sch : schedule) (q : gset string)
    (m : machine) (c : string) :
  schedule_ok sch → crawl_ok m → c ∉ visited_categories (self m) →
  let r := Improved.visit_category e sch q m c in
  r.1 = q ∪ subcategories_of improved e c
  ∧ crawl_ok r.2
  ∧ visited_pages (self r.2) = visited_pages (self m) ∪ pages_of improved e c
  ∧ visited_categories (self r.2) = visited_categories (self m) ∪ {[ c ]}
  ∧ recorded r.2 =
      recorded m ∪ filter (accepts improved e)
                     (pages_of improved e c ∖ visited_pages (self m)).
Proof.
  intros Hsch Hok Hc. unfold Improved.visit_category.
  rewrite bool_decide_eq_false_2 by done.
  unfold subcategories_of, pages_of, explore.
  destruct (Improved.get_subcategories_and_pages e c) as [[subs pages]|]; simpl.
  - destruct (fold_pages (Improved.process_page e)
                (λ u, accepted (Improved.extract_page_info e u))
                (improved_process_page_visited e)) with
      (l := iter sch pages) (m := enter_category m c)
      as (Hok' & Hvp & Hvc & Hrec).
    + intros m1 u Hu.
      destruct (improved_process_page_new e m1 u Hu) as (?&?&?&?). done.
    + intros u r. apply improved_accepted_url.
    + by apply crawl_ok_enter.
    + rewrite iter_set in Hvp, Hrec by done. done.
  - split_and!; [set_solver | done | set_solver | done |].
    apply set_eq. intros x. set_unfold. tauto.
Qed.

Section improved_loop.
Context (e : env) (sch : schedule) (U : gset string) (m0 : machine).
Hypothesis Hsch : schedule_ok sch.
Hypothesis Hclosed : Graph.closed (subcategories_of improved e) U.

Lemma improved_turn_invariant (q : gset string) (m : machine) (c : string) :
  c ∈ U → c ∉ visited_categories (self m) →
  loop_invariant improved e U m0 q m →
  let r := Improved.visit_category e sch q m c in
  loop_invariant improved e U m0 r.1 r.2
  ∧ visited_categories (self r.2) = visited_categories (self m) ∪ {[ c ]}.
Proof.
  intros HcU Hc (Hq & Hok & Hvc0 & Hvp & Hrec).
  destruct (improved_visit_new e sch q m c Hsch Hok Hc)
    as (Hq1 & Hok1 & Hvp1 & Hvc1 & Hrec1).
  simpl in *. split; [|done]. unfold loop_invariant.
  rewrite Hvc1, discovered_insert by done.
  split_and!.
  - rewrite Hq1. specialize (Hclosed c HcU). set_solver.
  - done.
  - set_solver.
  - rewrite Hvp1, Hvp. set_solver.
  - rewrite Hrec1, Hrec, Hvp. rewrite <- (assoc_L (∪)). f_equal.
    apply filter_merge.
Qed.

Lemma improved_loop_terminates (fuel : nat) (q : gset string) (m : machine) :
  loop_invariant improved e U m0 q m →
  loop_measure U q m < fuel →
  ∃ m', Improved.scrape_loop e sch fuel q m = Some (∅, m')
        ∧ loop_invariant improved e U m0 ∅ m'.
Proof.
  revert q m. induction fuel as [|fuel IH]; intros q m Hinv Hlt; [lia|].
  simpl. destruct (decide (q = ∅)) as [->|Hq]; [by eexists|].
  pose proof Hinv as (HqU & Hok & Hvc0 & Hvp & Hrec).
  assert (pop sch q ∈ q) as Hpop by by apply Hsch.
  set (c := pop sch q) in *.
  assert (size (q ∖ {[c]}) + 1 = size q) as Hsize by by apply size_remove.
  destruct (decide (c ∈ visited_categories (self m))) as [Hc|Hc].
  - rewrite improved_visit_skip by done. apply IH.
    + unfold loop_invariant. split_and!; [set_solver|done..].
    + unfold loop_measure in *. lia.
  - destruct (improved_turn_invariant (q ∖ {[c]}) m c) as [Hinv1 Hvc1];
      [set_solver | done | |].
    { unfold loop_invariant. split_and!; [set_solver|done..]. }
    destruct (Improved.visit_category e sch (q ∖ {[c]}) m c) as [q1 m1].
    simpl in *. apply IH; [done|].
    unfold loop_measure in *. rewrite Hvc1.
    assert (size q1 ≤ size U)%nat by (apply subseteq_size, Hinv1).
    assert (size (U ∖ (visited_categories (self m) ∪ {[c]})) + 1
            = size (U ∖ visited_categories (self m))) as Hdec.
    { replace (U ∖ (visited_categories (self m) ∪ {[c]}))
        with ((U ∖ visited_categories (self m)) ∖ {[c]}) by set_solver.
      apply size_remove. set_solver. }
    nia.
Qed.
End improved_loop.

(** ** The two loops of the original scraper *)

Lemma original_collect_skip (e : env) (q p : gset string) (m : machine)
    (c : string) :
  c ∈ visited_categories (self m) →
  Original.collect_category e q p m c = (q, p, m).
Proof.
  intros H. unfold Original.collect_category. by rewrite bool_decide_eq_true_2.
Qed.

Lemma original_collect_new (e : env) (q p : gset string) (m : machine)
    (c : string) :
  c ∉ visited_categories (self m) →
  let r := Original.collect_category e q p m c in
  r.1.1 = q ∪ subcategories_of original e c
  ∧ r.1.2 = p ∪ (pages_of original e c ∖ visited_pages (self m))
  ∧ visited_pages (self r.2) = visited_pages (self m)
  ∧ visited_categories (self r.2) = visited_categories (self m) ∪ {[ c ]}
  ∧ animal_data (self r.2) = animal_data (self m).
Proof.
  intros Hc. unfold Original.collect_category.
  rewrite bool_decide_eq_false_2 by done.
  unfold subcategories_of, pages_of, explore.
  destruct (Original.get_subcategories_and_pages e c) as [[subs pages]|]; simpl.
  - case_match; simpl; rewrite ?self_save_data; simpl;
      split_and!; try done; f_equal;
      apply set_eq; intros x; rewrite elem_of_filter, elem_of_difference; tauto.
  - case_match; simpl; rewrite ?self_save_data; simpl;
      split_and!; try done; set_solver.
Qed.

Section original_loop.
Context (e : env) (sch : schedule) (U : gset string) (m0 : machine).
Hypothesis Hsch : schedule_ok sch.
Hypothesis Hclosed : Graph.closed (subcategories_of original e) U.

Lemma original_turn_invariant (q p : gset string) (m : machine) (c : string) :
  c ∈ U → c ∉ visited_categories (self m) →
  collect_invariant e U m0 q p m →
  let r := Original.collect_category e q p m c in
  collect_invariant e U m0 r.1.1 r.1.2 r.2
  ∧ visited_categories (self r.2) = visited_categories (self m) ∪ {[ c ]}.
Proof.
  intros HcU Hc (Hq & Hvc0 & Hvp & Hdata & Hp).
  destruct (original_collect_new e q p m c Hc)
    as (Hq1 & Hp1 & Hvp1 & Hvc1 & Hdata1).
  simpl in *. split; [|done]. unfold collect_invariant.
  rewrite Hvc1, discovered_insert by done.
  split_and!.
  - rewrite Hq1. specialize (Hclosed c HcU). set_solver.
  - set_solver.
  - congruence.
  - congruence.
  - rewrite Hp1, Hp, Hvp. set_solver.
Qed.

Lemma original_loop_terminates (fuel : nat) (q p : gset string) (m : machine) :
  collect_invariant e U m0 q p m →
  loop_measure U q m < fuel →
  ∃ p' m', Original.collect_loop e sch fuel q p m = Some (∅, p', m')
           ∧ collect_invariant e U m0 ∅ p' m'.
Proof.
  revert q p m. induction fuel as [|fuel IH]; intros q p m Hinv Hlt; [lia|].
  simpl. destruct (decide (q = ∅)) as [->|Hq]; [by eexists _, _|].
  pose proof Hinv as (HqU & Hvc0 & Hvp & Hdata & Hp).
  assert (pop sch q ∈ q) as Hpop by by apply Hsch.
  set (c := pop sch q) in *.
  assert (size (q ∖ {[c]}) + 1 = size q) as Hsize by by apply size_remove.
  destruct (decide (c ∈ visited_categories (self m))) as [Hc|Hc].
  - rewrite original_collect_skip by done. apply IH.
    + unfold collect_invariant. split_and!; [set_solver|done..].
    + unfold loop_measure in *. lia.
  - destruct (original_turn_invariant (q ∖ {[c]}) p m c) as [Hinv1 Hvc1];
      [set_solver | done | |].
    { unfold collect_invariant. split_and!; [set_solver|done..]. }
    destruct (Original.collect_category e (q ∖ {[c]}) p m c) as [[q1 p1] m1].
    simpl in *. apply IH; [done|].
    unfold loop_measure in *. rewrite Hvc1.
    assert (size q1 ≤ size U)%nat by (apply subseteq_size, Hinv1).
    assert (size (U ∖ (visited_categories (self m) ∪ {[c]})) + 1
            = size (U ∖ visited_categories (self m))) as Hdec.
    { replace (U ∖ (visited_categories (self m) ∪ {[c]}))
        with ((U ∖ visited_categories (self m)) ∖ {[c]}) by set_solver.
      apply size_remove. set_solver. }
    nia.
Qed.
End original_loop.

(** ** Termination of the crawl and the number of records *)

Lemma discovered_nothing (pages : string → gset string) (X : gset string) :
  Graph.discovered pages (X ∖ X) = ∅.
Proof.
  unfold Graph.discovered. apply set_eq. intros x.
  rewrite elem_of_set_bind. set_solver.
Qed.

Lemma union_difference_absorb (A B : gset string) : A ∪ (B ∖ A) = A ∪ B.
Proof.
  apply set_eq. intros x. rewrite !elem_of_union, elem_of_difference.
  destruct (decide (x ∈ A)); tauto.
Qed.

Lemma difference_twice (A B : gset string) : (B ∖ A) ∖ A = B ∖ A.
Proof.
  apply set_eq. intros x. rewrite !elem_of_difference. tauto.
Qed.

Lemma start_measure (U : gset string) (start_url : string) (m : machine)
    (fuel : nat) :
  size U * (size U + 1) + 1 < fuel → loop_measure U {[ start_url ]} m < fuel.
Proof.
  unfold loop_measure. rewrite size_singleton.
  assert (size (U ∖ visited_categories (self m)) ≤ size U)%nat
    by (apply subseteq_size; set_solver).
  nia.
Qed.

Lemma improved_crawl (e : env) (sch : schedule) (U : gset string)
    (start_url : string) (m : machine) (fuel : nat) :
  schedule_ok sch → start_url ∈ U →
  Graph.closed (subcategories_of improved e) U → crawl_ok m →
  size U * (size U + 1) + 1 < fuel →
  ∃ m', Improved.scrape_animals e sch fuel start_url m = Some (∅, m')
        ∧ loop_invariant improved e U m ∅ m'.
Proof.
  intros Hsch Hstart Hclosed Hok Hfuel. unfold Improved.scrape_animals.
  apply improved_loop_terminates; [done..| |by apply start_measure].
  unfold loop_invariant. rewrite discovered_nothing.
  split_and!; [set_solver | done | done | set_solver |].
  apply set_eq. intros x. set_unfold. tauto.
Qed.

Lemma original_crawl (e : env) (sch : schedule) (U : gset string)
    (start_url : string) (m : machine) (fuel : nat) :
  schedule_ok sch → start_url ∈ U →
  Graph.closed (subcategories_of original e) U → crawl_ok m →
  size U * (size U + 1) + 1 < fuel →
  ∃ m', Original.scrape_animals e sch fuel start_url m = Some (∅, m')
        ∧ loop_invariant original e U m ∅ m'.
Proof.
  intros Hsch Hstart Hclosed Hok Hfuel. unfold Original.scrape_animals.
  destruct (original_loop_terminates e sch U m Hsch Hclosed fuel
              {[start_url]} ∅ m) as (p & m1 & -> & Hinv).
  { unfold collect_invariant. rewrite discovered_nothing.
    split_and!; [set_solver | done | done | done | set_solver]. }
  { by apply start_measure. }
  destruct Hinv as (_ & Hvc0 & Hvp & Hdata & Hp).
  assert (crawl_ok m1) as Hok1 by (unfold crawl_ok; by rewrite Hvp, Hdata).
  destruct (fold_pages (Original.process_page e)
              (λ u, accepted (Original.extract_page_info e u))
              (original_process_page_visited e)) with
    (l := iter sch p) (m := m1) as (Hok' & Hvp' & Hvc' & Hrec'); [| |done|].
  { intros m2 u Hu.
    destruct (original_process_page_new e m2 u Hu) as (?&?&?&?). done. }
  { intros u r. apply original_accepted_url. }
  rewrite iter_set in Hvp', Hrec' by done.
  eexists. split; [done|]. unfold loop_invariant.
  rewrite Hvc'. rewrite <- Hp.
  split_and!; [done | done | done | | ].
  - rewrite Hvp', Hvp, Hp. apply union_difference_absorb.
  - rewrite Hrec'. unfold recorded at 1. rewrite Hdata. fold (recorded m).
    f_equal. rewrite Hvp, Hp. by rewrite difference_twice.
Qed.

(** C1, as the code has it.  On a site whose topical categories are
    finitely many (they all lie in the finite set [U], which no category
    of [U] links out of), [scrape_animals] of either variant, given more
    fuel than [size U * (size U + 1) + 1] turns, ends with an empty
    frontier.  At that point the number of records is the number held at
    the start plus the number of pages that the categories entered during
    the run list, that were not visited at the start, and for which
    [extract_page_info] returns a record with text. *)
Theorem crawl_terminates (v : variant) (e : env) (sch : schedule)
    (U : gset string) (start_url : string) (m : machine) (fuel : nat) :
  schedule_ok sch →
  start_url ∈ U →
  Graph.closed (subcategories_of v e) U →
  crawl_ok m →
  size U * (size U + 1) + 1 < fuel →
  ∃ m',
    scrape_animals v e sch fuel start_url m = Some (∅, m')
    ∧ length (animal_data (self m'))
      = length (animal_data (self m))
        + size (filter (accepts v e)
                  (Graph.discovered (pages_of v e)
                     (visited_categories (self m')
                      ∖ visited_categories (self m))
                   ∖ visited_pages (self m))).
Proof.
  intros Hsch Hstart Hclosed Hok Hfuel.
  assert (∃ m', scrape_animals v e sch fuel start_url m = Some (∅, m')
                ∧ loop_invariant v e U m ∅ m') as (m' & Hrun & Hinv).
  { destruct v; [by apply original_crawl | by apply improved_crawl]. }
  exists m'. split; [done|].
  destruct Hinv as (_ & Hok' & _ & _ & Hrec).
  apply count_records; [done | done | | done].
  apply elem_of_disjoint. intros x [_ Hx]%elem_of_filter Hx'.
  by apply elem_of_difference in Hx as [_ Hx].
Qed.

Lemma savanna_closed :
  Graph.closed (subcategories_of improved Sample.savanna)
    {[ Sample.start_url; base_url +:+ "/wiki/Category:Mammals" ]}.
Proof.
  intros c Hc.
  apply elem_of_union in Hc as [Hc|Hc]; apply elem_of_singleton in Hc as ->;
    compute_done.
Qed.

Lemma savanna_fuel :
  size ({[ Sample.start_url; base_url +:+ "/wiki/Category:Mammals" ]} : gset string)
  * (size ({[ Sample.start_url; base_url +:+ "/wiki/Category:Mammals" ]}
           : gset string) + 1) + 1 < 10.
Proof. compute_done. Qed.

Lemma crawl_terminates_witness :
  schedule_ok elements_schedule
  ∧ Sample.start_url
    ∈ ({[ Sample.start_url; base_url +:+ "/wiki/Category:Mammals" ]} : gset string)
  ∧ Graph.closed (subcategories_of improved Sample.savanna)
      {[ Sample.start_url; base_url +:+ "/wiki/Category:Mammals" ]}
  ∧ crawl_ok (constructed ∅)
  ∧ ∃ m',
      scrape_animals improved Sample.savanna elements_schedule 10
        Sample.start_url (constructed ∅) = Some (∅, m')
      ∧ length (animal_data (self m'))
        = length (animal_data (self (constructed ∅)))
          + size (filter (accepts improved Sample.savanna)
                    (Graph.discovered (pages_of improved Sample.savanna)
                       (visited_categories (self m')
                        ∖ visited_categories (self (constructed ∅)))
                     ∖ visited_pages (self (constructed ∅)))).
Proof.
  assert (Sample.start_url
          ∈ ({[ Sample.start_url; base_url +:+ "/wiki/Category:Mammals" ]}
             : gset string)) as Hstart
    by (apply elem_of_union; left; by apply elem_of_singleton).
  split; [exact elements_schedule_ok|].
  split; [exact Hstart|].
  split; [exact savanna_closed|].
  split; [exact (crawl_ok_constructed ∅)|].
  exact (crawl_terminates improved Sample.savanna elements_schedule _
           Sample.start_url (constructed ∅) 10 elements_schedule_ok Hstart
           savanna_closed (crawl_ok_constructed ∅) savanna_fuel).
Defined.

Lemma scrape_crawl (e : env) (fs : gmap string file) :
  is_Some (Improved.scrape_animals e elements_schedule 10 Sample.start_url
             (Improved.init fs)) →
  Improved.scrape_animals e elements_schedule 10 Sample.start_url
    (Improved.init fs) = Some (Sample.crawl e fs).
Proof. intros [r Hr]. unfold Sample.crawl. by rewrite Hr. Qed.

(** C1, as stated, fails in its last part.  On the sample site the crawl
    drains the frontier with two records, while three of the pages it
    discovered pass both the namespace filter and the category test: the
    third has no text in its body and is rejected for that. *)
Lemma record_count_below_filter_count :
  Improved.scrape_animals Sample.savanna elements_schedule 10 Sample.start_url
    (Improved.init ∅) = Some (Sample.crawl Sample.savanna ∅)
  ∧ (Sample.crawl Sample.savanna ∅).1 = ∅
  ∧ length (animal_data (self (Sample.crawl Sample.savanna ∅).2)) = 2
  ∧ size (filter (λ u, is_valid_article u = true
                       ∧ topical_page Sample.savanna u = true)
            (Graph.discovered (pages_of improved Sample.savanna)
               (visited_categories (self (Sample.crawl Sample.savanna ∅).2))))
    = 3.
Proof.
  split_and!; [|compute_done..]. apply scrape_crawl. compute_done.
Qed.

(** ** Further properties of the explorers *)

Lemma scan_category_links_admits (soup : node) (div_ids : list string)
    (X : gset string) :
  (∀ u, u ∈ X → category_link u) →
  ∀ u, u ∈ scan_category_links soup div_ids X → category_link u.
Proof.
  unfold scan_category_links. revert X.
  induction div_ids as [|div_id div_ids IH]; intros X HX; cbn [foldl]; [done|].
  apply IH. destruct (find_by_id "div" div_id soup) as [category_div|]; [|done].
  generalize (hrefs category_div). intros l. revert X HX.
  induction l as [|href l IHl]; intros X HX; cbn [foldl]; [done|].
  apply IHl. destruct (startswith href "/wiki/Category:" && is_animal_category href)
    eqn:Hadm; [|done].
  apply andb_true_iff in Hadm as [Hs Ha].
  intros u [Hu| ->%elem_of_singleton]%elem_of_union; [by apply HX|].
  by exists href.
Qed.

Lemma scan_page_links_admits (soup : node) (X : gset string) :
  (∀ u, u ∈ X → page_link u) →
  ∀ u, u ∈ scan_page_links soup X → page_link u.
Proof.
  unfold scan_page_links.
  destruct (find_by_id "div" "mw-pages" soup) as [pages_div|]; [|done].
  generalize (hrefs pages_div). intros l. revert X.
  induction l as [|href l IHl]; intros X HX; cbn [foldl]; [done|].
  apply IHl. destruct (startswith href "/wiki/" && is_valid_article href)
    eqn:Hadm; [|done].
  apply andb_true_iff in Hadm as [Hs Ha].
  intros u [Hu| ->%elem_of_singleton]%elem_of_union; [by apply HX|].
  by exists href.
Qed.

Lemma scan_category_links_grows (soup : node) (div_ids : list string)
    (X : gset string) :
  X ⊆ scan_category_links soup div_ids X.
Proof.
  unfold scan_category_links. revert X.
  induction div_ids as [|div_id div_ids IH]; intros X; cbn [foldl]; [done|].
  etrans; [|apply IH].
  destruct (find_by_id "div" div_id soup) as [category_div|]; [|done].
  generalize (hrefs category_div). intros l. revert X.
  induction l as [|href l IHl]; intros X; cbn [foldl]; [done|].
  etrans; [|apply IHl]. case_match; [apply union_subseteq_l | done].
Qed.

Lemma scan_page_links_grows (soup : node) (X : gset string) :
  X ⊆ scan_page_links soup X.
Proof. rewrite scan_page_links_union. apply union_subseteq_l. Qed.

Lemma merge_next_pages_admits (e : env) (l : list string)
    (found : gset string * gset string) :
  (∀ u, u ∈ found.1 → category_link u) →
  (∀ u, u ∈ found.2 → page_link u) →
  (∀ u, u ∈ (foldl (Original.merge_next_page e) found l).1 → category_link u)
  ∧ (∀ u, u ∈ (foldl (Original.merge_next_page e) found l).2 → page_link u).
Proof.
  revert found. induction l as [|n l IH]; intros found H1 H2; cbn [foldl]; [done|].
  apply IH; unfold Original.merge_next_page;
    destruct (get_page_content e n) as [next_soup|]; cbn [fst snd]; try done.
  - by apply scan_category_links_admits.
  - by apply scan_page_links_admits.
Qed.

Lemma merge_next_pages_grows (e : env) (l : list string)
    (found : gset string * gset string) :
  found.1 ⊆ (foldl (Original.merge_next_page e) found l).1
  ∧ found.2 ⊆ (foldl (Original.merge_next_page e) found l).2.
Proof.
  revert found. induction l as [|n l IH]; intros found; cbn [foldl]; [done|].
  destruct (IH (Original.merge_next_page e found n)) as [H1 H2].
  split; (etrans; [|done]); unfold Original.merge_next_page;
    destruct (get_page_content e n) as [next_soup|]; cbn [fst snd]; try done.
  - apply scan_category_links_grows.
  - apply scan_page_links_grows.
Qed.

Lemma append_inj (p a b : string) : p +:+ a = p +:+ b → a = b.
Proof. induction p as [|c p IH]; simpl; [done|]. intros [= H]. by apply IH. Qed.

Lemma category_link_not_page (u : string) :
  category_link u → page_link u → False.
Proof.
  intros (h1 & -> & Hs & _) (h2 & Heq & _ & Hv).
  apply append_inj in Heq as <-.
  apply prefix_spec in Hs as [post ->].
  pose proof (proj1 (is_valid_article_spec _) Hv) as Hno.
  apply (Hno "Category:"); [by left|].
  by exists "/wiki/", post.
Qed.

(** X1.  Whatever a document holds, either explorer returns as child
    categories only addresses of links that start with "/wiki/Category:"
    and pass [is_animal_category], and as candidate pages only addresses
    of links that start with "/wiki/" and pass [is_valid_article]; the
    continuation pages of the original explorer are held to the same
    tests.  No address is returned both as a child category and as a
    candidate page: an admitted category link carries "Category:", which
    [is_valid_article] refuses. *)
Theorem explored_links_admitted (v : variant) (e : env) (url : string)
    (subcategories pages : gset string) :
  explore v e url = Ok (subcategories, pages) →
  (∀ u, u ∈ subcategories → category_link u)
  ∧ (∀ u, u ∈ pages → page_link u)
  ∧ subcategories ## pages.
Proof.
  intros Hexplore.
  assert ((∀ u, u ∈ subcategories → category_link u)
          ∧ (∀ u, u ∈ pages → page_link u)) as [H1 H2].
  { destruct v; cbn [explore] in Hexplore.
    - unfold Original.get_subcategories_and_pages in Hexplore.
      destruct (get_page_content e url) as [soup|]; [|done].
      unfold mbind, result_bind in Hexplore.
      pose proof (merge_next_pages_admits e (Original.next_links soup)
        (scan_category_links soup
           ["mw-subcategories"; "mw-normal-catlinks"; "mw-hidden-catlinks"] ∅,
         scan_page_links soup ∅)) as Hadm.
      destruct (foldl _ _ _) as [s p] eqn:Hfold.
      injection Hexplore as <- <-. apply Hadm; cbn [fst snd].
      + apply scan_category_links_admits. set_solver.
      + apply scan_page_links_admits. set_solver.
    - unfold Improved.get_subcategories_and_pages, try_except in Hexplore.
      destruct (get_page_content e url) as [soup|];
        unfold mbind, result_bind in Hexplore; injection Hexplore as <- <-;
        [|set_solver].
      split.
      + apply (scan_category_links_admits soup
          ["mw-subcategories"; "mw-normal-catlinks"; "mw-hidden-catlinks"] ∅).
        set_solver.
      + apply (scan_page_links_admits soup ∅). set_solver. }
  split_and!; [done | done |].
  apply elem_of_disjoint. intros u Hs Hp.
  by eapply category_link_not_page; [apply H1 | apply H2].
Qed.

Lemma explored_links_admitted_witness :
  explore original Sample.paged Sample.birds_url
    = Ok (∅, {[ base_url +:+ "/wiki/A"; base_url +:+ "/wiki/B";
                base_url +:+ "/wiki/C" ]})
  ∧ (∀ u, u ∈ (∅ : gset string) → category_link u)
  ∧ (∀ u, u ∈ ({[ base_url +:+ "/wiki/A"; base_url +:+ "/wiki/B";
                  base_url +:+ "/wiki/C" ]} : gset string) → page_link u)
  ∧ (∅ : gset string)
    ## ({[ base_url +:+ "/wiki/A"; base_url +:+ "/wiki/B";
           base_url +:+ "/wiki/C" ]} : gset string).
Proof.
  assert (explore original Sample.paged Sample.birds_url
    = Ok (∅, {[ base_url +:+ "/wiki/A"; base_url +:+ "/wiki/B";
                base_url +:+ "/wiki/C" ]})) as H by compute_done.
  split; [exact H|].
  exact (explored_links_admitted original Sample.paged Sample.birds_url _ _ H).
Defined.

(** X2.  On a category page that can be fetched, the improved explorer
    returns subsets of what the original returns: leaving out pagination
    only loses links.  When the fetch fails, the improved explorer
    returns two empty sets where the original raises. *)
Theorem improved_explorer_below_original (e : env) (url : string) :
  match get_page_content e url with
  | Ok _ =>
      ∃ s1 p1 s2 p2,
        Improved.get_subcategories_and_pages e url = Ok (s1, p1)
        ∧ Original.get_subcategories_and_pages e url = Ok (s2, p2)
        ∧ s1 ⊆ s2 ∧ p1 ⊆ p2
  | Raise x =>
      Improved.get_subcategories_and_pages e url = Ok (∅, ∅)
      ∧ Original.get_subcategories_and_pages e url = Raise x
  end.
Proof.
  unfold Improved.get_subcategories_and_pages,
    Original.get_subcategories_and_pages, try_except.
  destruct (get_page_content e url) as [soup|x]; unfold mbind, result_bind;
    [|done].
  destruct (foldl _ _ _) as [s2 p2] eqn:Hfold.
  eexists _, _, s2, p2. split_and!; [done..| |].
  - pose proof (merge_next_pages_grows e (Original.next_links soup)
      (scan_category_links soup
         ["mw-subcategories"; "mw-normal-catlinks"; "mw-hidden-catlinks"] ∅,
       scan_page_links soup ∅)) as [H _]. by rewrite Hfold in H.
  - pose proof (merge_next_pages_grows e (Original.next_links soup)
      (scan_category_links soup
         ["mw-subcategories"; "mw-normal-catlinks"; "mw-hidden-catlinks"] ∅,
       scan_page_links soup ∅)) as [_ H]. by rewrite Hfold in H.
Qed.

(** ** The pagination merge of the original explorer *)

Lemma scan_category_links_union (soup : node) (div_ids : list string)
    (X : gset string) :
  scan_category_links soup div_ids X = X ∪ scan_category_links soup div_ids ∅.
Proof.
  unfold scan_category_links. apply foldl_union. intros Y div_id.
  destruct (find_by_id "div" div_id soup) as [category_div|].
  - apply foldl_union. intros Z href. case_match.
    + by rewrite (left_id_L ∅ (∪)).
    + by rewrite (right_id_L ∅ (∪)).
  - by rewrite (right_id_L ∅ (∪)).
Qed.

Lemma merge_next_categories_spec (e : env) (l : list string)
    (found : gset string * gset string) (u : string) :
  u ∈ (foldl (Original.merge_next_page e) found l).1 ↔
    u ∈ found.1
    ∨ ∃ next_page_url next_soup,
        next_page_url ∈ l
        ∧ get_page_content e next_page_url = Ok next_soup
        ∧ u ∈ scan_category_links next_soup
                ["mw-subcategories"; "mw-normal-catlinks"] ∅.
Proof.
  revert found. induction l as [|n l IH]; intros found; cbn [foldl].
  - split; [by left|]. intros [?|(? & ? & []%elem_of_nil & _)]. done.
  - rewrite IH. unfold Original.merge_next_page.
    destruct (get_page_content e n) as [next_soup|x] eqn:Hn; cbn [fst snd].
    + rewrite scan_category_links_union, elem_of_union. split.
      * intros [[?|?]|(n' & d & ? & ? & ?)]; [by left| |].
        -- right. exists n, next_soup. rewrite elem_of_cons. eauto.
        -- right. exists n', d. rewrite elem_of_cons. eauto.
      * intros [?|(n' & d & [->|?]%elem_of_cons & Hn' & ?)]; [by left; left| |].
        -- left. right. congruence.
        -- right. eauto.
    + split.
      * intros [?|(n' & d & ? & ? & ?)]; [by left|].
        right. exists n', d. rewrite elem_of_cons. eauto.
      * intros [?|(n' & d & [->|?]%elem_of_cons & Hn' & ?)]; [by left| |].
        -- congruence.
        -- right. eauto.
Qed.

(** X3.  The original explorer returns exactly what the first page and
    the continuation pages linked on the first page hold: the candidate
    pages are the member links of all of them; the child categories are
    those of the three category containers of the first page and of two
    of them (not the hidden-category container) on each continuation
    page.  A continuation page that fails to load is left out without an
    error, and links to further continuations are not followed. *)
Theorem original_pagination_one_level (e : env) (url : string) (soup : node) :
  get_page_content e url = Ok soup →
  ∃ subcategories pages,
    Original.get_subcategories_and_pages e url = Ok (subcategories, pages)
    ∧ (∀ u, u ∈ pages ↔
         u ∈ scan_page_links soup ∅
         ∨ ∃ next_page_url next_soup,
             next_page_url ∈ Original.next_links soup
             ∧ get_page_content e next_page_url = Ok next_soup
             ∧ u ∈ scan_page_links next_soup ∅)
    ∧ (∀ u, u ∈ subcategories ↔
         u ∈ scan_category_links soup
               ["mw-subcategories"; "mw-normal-catlinks"; "mw-hidden-catlinks"] ∅
         ∨ ∃ next_page_url next_soup,
             next_page_url ∈ Original.next_links soup
             ∧ get_page_content e next_page_url = Ok next_soup
             ∧ u ∈ scan_category_links next_soup
                     ["mw-subcategories"; "mw-normal-catlinks"] ∅).
Proof.
  intros Hsoup. unfold Original.get_subcategories_and_pages.
  rewrite Hsoup. unfold mbind, result_bind.
  destruct (foldl _ _ _) as [subs pages] eqn:Hfold.
  exists subs, pages. split; [done|]. split; intros u.
  - pose proof (merge_next_pages_spec e (Original.next_links soup)
      (scan_category_links soup
         ["mw-subcategories"; "mw-normal-catlinks"; "mw-hidden-catlinks"] ∅,
       scan_page_links soup ∅) u) as H.
    rewrite Hfold in H. exact H.
  - pose proof (merge_next_categories_spec e (Original.next_links soup)
      (scan_category_links soup
         ["mw-subcategories"; "mw-normal-catlinks"; "mw-hidden-catlinks"] ∅,
       scan_page_links soup ∅) u) as H.
    rewrite Hfold in H. exact H.
Qed.

Lemma original_pagination_one_level_witness :
  get_page_content Sample.paged Sample.birds_url
    = Ok (Sample.category_page [] ["/wiki/A"; "/wiki/B"] [Sample.birds_next])
  ∧ ∃ subcategories pages,
      Original.get_subcategories_and_pages Sample.paged Sample.birds_url
        = Ok (subcategories, pages)
      ∧ (∀ u, u ∈ pages ↔
           u ∈ scan_page_links
                 (Sample.category_page [] ["/wiki/A"; "/wiki/B"]
                    [Sample.birds_next]) ∅
           ∨ ∃ next_page_url next_soup,
               next_page_url
               ∈ Original.next_links
                   (Sample.category_page [] ["/wiki/A"; "/wiki/B"]
                      [Sample.birds_next])
               ∧ get_page_content Sample.paged next_page_url = Ok next_soup
               ∧ u ∈ scan_page_links next_soup ∅)
      ∧ (∀ u, u ∈ subcategories ↔
           u ∈ scan_category_links
                 (Sample.category_page [] ["/wiki/A"; "/wiki/B"]
                    [Sample.birds_next])
                 ["mw-subcategories"; "mw-normal-catlinks"; "mw-hidden-catlinks"] ∅
           ∨ ∃ next_page_url next_soup,
               next_page_url
               ∈ Original.next_links
                   (Sample.category_page [] ["/wiki/A"; "/wiki/B"]
                      [Sample.birds_next])
               ∧ get_page_content Sample.paged next_page_url = Ok next_soup
               ∧ u ∈ scan_category_links next_soup
                       ["mw-subcategories"; "mw-normal-catlinks"] ∅).
Proof.
  split; [reflexivity|].
  exact (original_pagination_one_level Sample.paged Sample.birds_url _ eq_refl).
Defined.

(** ** Further properties of the extractors *)

Lemma nonempty_true (s : string) : nonempty s = true ↔ s ≠ "".
Proof. destruct s; simpl; split; done. Qed.

(** X4.  A record returned by either extractor carries the URL it was
    asked for, a non-empty title, a non-empty text, and a category list
    that passes the page-level keyword test; the improved extractor stamps
    it with the clock, the original leaves the timestamp out.  The
    engine's own test on [main_text] therefore never turns such a record
    down. *)
Theorem extracted_record_invariant (v : variant) (e : env) (u : string)
    (r : record) :
  extract v e u = Ok (Some r) →
  url r = u
  ∧ title r ≠ ""
  ∧ main_text r ≠ ""
  ∧ is_animal_page (categories r) = true
  ∧ timestamp r = match v with
                  | original => None
                  | improved => Some (utcnow e)
                  end
  ∧ accepted (extract v e u) = Some r.
Proof.
  intros H.
  assert (url r = u ∧ title r ≠ "" ∧ main_text r ≠ ""
          ∧ is_animal_page (categories r) = true
          ∧ timestamp r = match v with
                          | original => None
                          | improved => Some (utcnow e)
                          end) as Hr.
  { destruct v; cbn [extract] in H.
    - unfold Original.extract_page_info, mbind, result_bind in H.
      repeat case_match; simplify_eq; cbn [url title main_text categories timestamp];
        split_and!; try done.
      + by apply nonempty_true, negb_false_iff.
      + by apply nonempty_true, negb_false_iff.
      + by apply negb_false_iff.
    - unfold Improved.extract_page_info, try_except, mbind, result_bind in H.
      repeat case_match; simplify_eq; cbn [url title main_text categories timestamp];
        split_and!; try done.
      + by apply nonempty_true, negb_false_iff.
      + by apply nonempty_true, negb_false_iff.
      + by apply negb_false_iff. }
  destruct Hr as (Hu & Ht & Hm & Hc & Hs). split_and!; try done.
  rewrite H. unfold accepted. by destruct (main_text r).
Qed.

Lemma extracted_record_invariant_witness :
  extract improved Sample.savanna (base_url +:+ "/wiki/Lion")
    = Ok (Some {| title := "Lion"; url := base_url +:+ "/wiki/Lion";
                  main_text := "The lion."; categories := ["Mammals"];
                  timestamp := Some "2024-01-01T00:00:00" |})
  ∧ "Lion" ≠ "" ∧ "The lion." ≠ "" ∧ is_animal_page ["Mammals"] = true.
Proof.
  assert (extract improved Sample.savanna (base_url +:+ "/wiki/Lion")
    = Ok (Some {| title := "Lion"; url := base_url +:+ "/wiki/Lion";
                  main_text := "The lion."; categories := ["Mammals"];
                  timestamp := Some "2024-01-01T00:00:00" |})) as H
    by reflexivity.
  split; [exact H|].
  destruct (extracted_record_invariant improved Sample.savanna _ _ H)
    as (_ & Ht & Hm & Hc & _).
  exact (conj Ht (conj Hm Hc)).
Defined.

(** X5.  A page that can be fetched and whose footer holds no category
    name matching a page keyword is rejected with [None] by either
    extractor, whatever the rest of the document looks like: the test
    comes before the content is touched, so the original extractor does
    not raise on such a page either. *)
Theorem non_topical_page_rejected (v : variant) (e : env) (u : string)
    (soup : node) :
  get_page_content e u = Ok soup →
  is_animal_page (page_categories v soup) = false →
  extract v e u = Ok None.
Proof.
  intros Hsoup Hcat. unfold page_categories in Hcat.
  destruct v; cbn [extract].
  - unfold Original.extract_page_info, mbind, result_bind. rewrite Hsoup.
    destruct (negb (nonempty _)); [done|].
    destruct (find_by_id "div" "mw-content-text" soup); [|done].
    assert (is_animal_page
              match find_by_id "div" "mw-normal-catlinks" soup with
              | Some catlinks => map get_text (anchors catlinks)
              | None => []
              end = false) as -> by exact Hcat.
    done.
  - unfold Improved.extract_page_info, try_except, mbind, result_bind.
    rewrite Hsoup.
    destruct (find_by_id "h1" "firstHeading" soup); [|done].
    destruct (negb (nonempty _)); [done|].
    destruct (find_by_id "div" "mw-content-text" soup); [|done].
    by rewrite Hcat.
Qed.

Lemma non_topical_page_rejected_witness :
  get_page_content Sample.savanna (base_url +:+ "/wiki/Car")
    = Ok (Sample.article "Car" ["Vehicles"] ["A car."])
  ∧ is_animal_page
      (page_categories original (Sample.article "Car" ["Vehicles"] ["A car."]))
    = false
  ∧ extract original Sample.savanna (base_url +:+ "/wiki/Car") = Ok None.
Proof.
  split; [reflexivity|]. split; [reflexivity|].
  exact (non_topical_page_rejected original Sample.savanna
           (base_url +:+ "/wiki/Car") _ eq_refl eq_refl).
Defined.

(** *** The removal loop *)

Lemma covered_mono (removed removed' : list path) (p : path) :
  removed ⊆ removed' → covered removed p → covered removed' p.
Proof. intros Hsub (r & Hr & Hp). exists r. split; [by apply Hsub | done]. Qed.

Lemma is_stale_covered (removed : list path) (p : path) :
  is_stale removed p = true ↔ covered removed p.
Proof.
  unfold is_stale, covered. rewrite existsb_exists. split.
  - intros (r & Hr & Hp). exists r. split; [by apply list_elem_of_In|].
    by apply bool_decide_eq_true in Hp.
  - intros (r & Hr & Hp). exists r. split; [by apply list_elem_of_In|].
    by apply bool_decide_eq_true.
Qed.

Lemma improved_turn (e : env) (removed : list path) (d : path * node) :
  ∃ removed',
    try_except (decompose_step e removed d) (λ _, Ok removed) = Ok removed'
    ∧ removed ⊆ removed'
    ∧ (∀ p, p ∈ removed' → p ∈ removed ∨ (p = d.1 ∧ is_infobox d.2 = false))
    ∧ (is_infobox d.2 = false → covered removed' d.1).
Proof.
  unfold decompose_step, try_except.
  destruct (is_stale removed d.1) eqn:Hstale.
  - exists removed. split; [by destruct (decomposed_access_raises e)|].
    split_and!; [done | by left |]. intros _. by apply is_stale_covered.
  - destruct (is_infobox d.2) eqn:Hbox.
    + exists removed. split_and!; [done | done | by left | done].
    + exists (d.1 :: removed). split_and!; [done | set_solver | |].
      * intros p [->|?]%elem_of_cons; [by right | by left].
      * intros _. exists d.1. split; [by left | done].
Qed.

(** X6.  The removal loop of the improved extractor never raises.  The
    positions it removes are positions of elements with an unwanted tag
    and no infobox class; and when it is done, every such element is gone
    from the tree, removed itself or inside a removed element. *)
Theorem improved_removal_complete (e : env) (main_content : node) :
  ∃ removed,
    Improved.remove_unwanted e (find_all_tags unwanted_tags main_content) []
      = Ok removed
    ∧ (∀ p, p ∈ removed →
         ∃ element, (p, element) ∈ find_all_tags unwanted_tags main_content
                    ∧ is_infobox element = false)
    ∧ (∀ p element,
         (p, element) ∈ find_all_tags unwanted_tags main_content →
         is_infobox element = false → covered removed p).
Proof.
  assert (∀ found removed0,
    ∃ removed,
      Improved.remove_unwanted e found removed0 = Ok removed
      ∧ removed0 ⊆ removed
      ∧ (∀ p, p ∈ removed → p ∈ removed0
           ∨ ∃ element, (p, element) ∈ found ∧ is_infobox element = false)
      ∧ (∀ p element, (p, element) ∈ found → is_infobox element = false →
           covered removed p)) as Hloop.
  { induction found as [|d found IH]; intros removed0; cbn [Improved.remove_unwanted].
    - exists removed0. split_and!; [done | done | by left |].
      intros p element []%elem_of_nil.
    - destruct (improved_turn e removed0 d) as (r1 & -> & Hsub1 & Hin1 & Hcov1).
      unfold mbind, result_bind.
      destruct (IH r1) as (r2 & Hr2 & Hsub2 & Hin2 & Hcov2).
      exists r2. split_and!; [done | by etrans | |].
      + intros p Hp. destruct (Hin2 p Hp) as [Hp1|(el & Hel & Hbox)].
        * destruct (Hin1 p Hp1) as [?|[-> Hbox]]; [by left|].
          right. exists d.2. split; [|done]. destruct d. by left.
        * right. exists el. split; [by right | done].
      + intros p element [Heq|Hel]%elem_of_cons Hbox.
        * subst d. eapply covered_mono; [done|]. by apply Hcov1.
        * by eapply Hcov2. }
  destruct (Hloop (find_all_tags unwanted_tags main_content) [])
    as (removed & Hr & _ & Hin & Hcov).
  exists removed. split_and!; [done | | done].
  intros p Hp. destruct (Hin p Hp) as [[]%elem_of_nil|?]. done.
Qed.

Lemma remove_unwanted_agree (e : env) (found : list (path * node))
    (removed r : list path) :
  Original.remove_unwanted e found removed = Ok r →
  Improved.remove_unwanted e found removed = Ok r.
Proof.
  revert removed. induction found as [|d found IH]; intros removed; simpl; [done|].
  destruct (decompose_step e removed d) as [r1|x]; simpl; [apply IH | done].
Qed.

(** *** Stripping and substrings *)

Lemma append_cons (x : ascii) (a b : string) :
  String x a +:+ b = String x (a +:+ b).
Proof. reflexivity. Qed.

Lemma append_assoc (a b c : string) : (a +:+ b) +:+ c = a +:+ (b +:+ c).
Proof.
  induction a as [|x a IH]; [done|]. rewrite !append_cons. by f_equal.
Qed.

Lemma occurs_trans (a b c : string) : occurs a b → occurs b c → occurs a c.
Proof.
  intros (p1 & q1 & ->) (p2 & q2 & ->).
  exists (p2 +:+ p1), (q1 +:+ q2). by rewrite !append_assoc.
Qed.

Lemma lstrip_suffix (s : string) : ∃ ws, s = ws +:+ lstrip s.
Proof.
  induction s as [|c s [ws IH]]; cbn [lstrip]; [by exists ""|].
  destruct (is_space c); [|by exists ""].
  exists (String c ws). rewrite append_cons. by f_equal.
Qed.

Lemma rstrip_prefix (s : string) : ∃ ws, s = rstrip s +:+ ws.
Proof.
  induction s as [|c s [ws IH]]; cbn [rstrip]; [by exists ""|].
  destruct (rstrip s) as [|d t] eqn:Hr.
  - destruct (is_space c); [by exists (String c s) | by exists s].
  - exists ws. rewrite append_cons. by f_equal.
Qed.

Lemma strip_occurs (s : string) : occurs (strip s) s.
Proof.
  unfold strip. destruct (lstrip_suffix s) as [pre Hpre].
  destruct (rstrip_prefix (lstrip s)) as [post Hpost].
  exists pre, post. by rewrite <- Hpost.
Qed.

Lemma occurs_lower_mono (a b : string) : occurs a b → occurs (lower a) (lower b).
Proof.
  intros (p & q & ->). exists (lower p), (lower q). by rewrite !lower_app.
Qed.

Lemma is_animal_page_strip (cats : list string) :
  is_animal_page (map strip cats) = true → is_animal_page cats = true.
Proof.
  unfold is_animal_page. rewrite !existsb_exists.
  intros (c & Hc & Hany). apply in_map_iff in Hc as (c0 & <- & Hc0).
  exists c0. split; [done|]. apply any_in_spec in Hany as (k & Hk & Ho).
  apply any_in_spec. exists k. split; [done|].
  eapply occurs_trans; [done|]. apply occurs_lower_mono, strip_occurs.
Qed.

(** X7.  The improved extractor is the stricter of the two: on a page it
    accepts, the original extractor does not return [None]; it returns a
    record for the same URL with the same text, whose title and category
    names are the unstripped ones, unless its removal loop raises. *)
Theorem improved_accepts_less (e : env) (u : string) (r : record) :
  Improved.extract_page_info e u = Ok (Some r) →
  (∃ x, Original.extract_page_info e u = Raise x)
  ∨ ∃ r', Original.extract_page_info e u = Ok (Some r')
          ∧ url r' = url r
          ∧ main_text r' = main_text r
          ∧ title r = strip (title r')
          ∧ categories r = map strip (categories r').
Proof.
  unfold Improved.extract_page_info, Original.extract_page_info, try_except,
    mbind, result_bind.
  destruct (get_page_content e u) as [soup|]; [|done].
  destruct (find_by_id "h1" "firstHeading" soup) as [h|]; [|done].
  destruct (nonempty (strip (get_text h))) eqn:Ht; [|done]. simpl.
  assert (nonempty (get_text h) = true) as ->.
  { destruct (get_text h); [done|done]. }
  simpl. destruct (find_by_id "div" "mw-content-text" soup) as [content|]; [|done].
  destruct (find_by_id "div" "mw-normal-catlinks" soup) as [catlinks|].
  - destruct (is_animal_page (map (λ link, strip (get_text link)) (anchors catlinks)))
      eqn:Hcat; [|done]. simpl.
    assert (is_animal_page (map get_text (anchors catlinks)) = true) as ->.
    { apply is_animal_page_strip. by rewrite map_map. }
    simpl. destruct (find_by_class _ _ _) as [main_content|]; [|done].
    destruct (Original.remove_unwanted e _ []) as [ro|x] eqn:Hro; [|by left; eauto].
    rewrite (remove_unwanted_agree _ _ _ _ Hro).
    destruct (nonempty (paragraph_text ro main_content)); [|done]. simpl.
    intros [= <-]. right. eexists. split; [done|]. simpl.
    split_and!; try done. by rewrite map_map.
  - done.
Qed.

Lemma improved_accepts_less_witness :
  Improved.extract_page_info Sample.savanna (base_url +:+ "/wiki/Lion")
    = Ok (Some {| title := "Lion"; url := base_url +:+ "/wiki/Lion";
                  main_text := "The lion."; categories := ["Mammals"];
                  timestamp := Some "2024-01-01T00:00:00" |})
  ∧ ((∃ x, Original.extract_page_info Sample.savanna (base_url +:+ "/wiki/Lion")
           = Raise x)
     ∨ ∃ r', Original.extract_page_info Sample.savanna (base_url +:+ "/wiki/Lion")
             = Ok (Some r')
             ∧ url r' = base_url +:+ "/wiki/Lion"
             ∧ main_text r' = "The lion."
             ∧ "Lion" = strip (title r')
             ∧ ["Mammals"] = map strip (categories r')).
Proof.
  split; [reflexivity|].
  exact (improved_accepts_less Sample.savanna (base_url +:+ "/wiki/Lion") _ eq_refl).
Defined.

(** ** Further properties of the engine *)

(** X8.  No action of the engine drops, changes or reorders a record:
    [animal_data] before the action is a prefix of [animal_data] after
    it. *)
Theorem records_append_only (m m' : machine) :
  engine_step m m' →
  animal_data (self m) `prefix_of` animal_data (self m').
Proof.
  destruct 1 as [fs | m c Hc | m k | e m u | e m u | e name m].
  - apply prefix_nil.
  - done.
  - done.
  - destruct (decide (u ∈ visited_pages (self m))) as [Hu|Hu].
    + by rewrite improved_process_page_visited.
    + destruct (improved_process_page_new e m u Hu) as (_ & _ & _ & ->).
      by apply prefix_app_r.
  - destruct (decide (u ∈ visited_pages (self m))) as [Hu|Hu].
    + by rewrite original_process_page_visited.
    + destruct (original_process_page_new e m u Hu) as (_ & _ & _ & ->).
      by apply prefix_app_r.
  - by rewrite self_save_data.
Qed.

Lemma records_append_only_witness :
  engine_step Sample.savanna_run
    (Improved.process_page Sample.herd Sample.savanna_run (base_url +:+ "/wiki/A0"))
  ∧ animal_data (self Sample.savanna_run)
    `prefix_of` animal_data
      (self (Improved.process_page Sample.herd Sample.savanna_run
               (base_url +:+ "/wiki/A0"))).
Proof.
  split; [apply step_page_improved|].
  exact (records_append_only _ _
           (step_page_improved Sample.herd Sample.savanna_run
              (base_url +:+ "/wiki/A0"))).
Defined.

(** X9.  Entering a category is idempotent in both variants: once the
    loop body has run for a category, fetched or not, the category is in
    [visited_categories], and running the body for it again changes
    neither the frontier, nor the pages to process, nor the state. *)
Theorem category_visit_idempotent (e : env) (sch : schedule)
    (q q' p p' : gset string) (m : machine) (c : string) :
  let m1 := (Improved.visit_category e sch q m c).2 in
  let m2 := (Original.collect_category e q p m c).2 in
  c ∈ visited_categories (self m1)
  ∧ Improved.visit_category e sch q' m1 c = (q', m1)
  ∧ c ∈ visited_categories (self m2)
  ∧ Original.collect_category e q' p' m2 c = (q', p', m2).
Proof.
  simpl.
  assert (c ∈ visited_categories (self (Improved.visit_category e sch q m c).2))
    as H1.
  { unfold Improved.visit_category. case_bool_decide as Hc; [done|].
    destruct (Improved.get_subcategories_and_pages e c) as [[subs pages]|];
      cbn [snd].
    - destruct (improved_pages_categories e (iter sch pages) (enter_category m c))
        as [-> _]. simpl. set_solver.
    - simpl. set_solver. }
  assert (c ∈ visited_categories (self (Original.collect_category e q p m c).2))
    as H2.
  { destruct (decide (c ∈ visited_categories (self m))) as [Hc|Hc].
    - by rewrite original_collect_skip.
    - destruct (original_collect_new e q p m c Hc) as (_ & _ & _ & -> & _).
      set_solver. }
  split_and!; [done | by apply improved_visit_skip | done
              | by apply original_collect_skip].
Qed.

Lemma collect_loop_gathers (e : env) (sch : schedule) (fuel : nat)
    (q p q' p' : gset string) (m m' : machine) :
  Original.collect_loop e sch fuel q p m = Some (q', p', m') →
  animal_data (self m) = [] →
  files m' = files m
  ∧ extractor_calls m' = extractor_calls m
  ∧ animal_data (self m') = []
  ∧ visited_pages (self m') = visited_pages (self m).
Proof.
  revert q p m. induction fuel as [|fuel IH]; intros q p m; cbn [Original.collect_loop];
    [done|].
  case_decide; [by intros [= _ _ <-]|].
  destruct (Original.collect_category e (q ∖ {[pop sch q]}) p m (pop sch q))
    as [[q1 p1] m1] eqn:Hturn.
  intros Hloop Hdata.
  assert (files m1 = files m ∧ extractor_calls m1 = extractor_calls m
          ∧ animal_data (self m1) = []
          ∧ visited_pages (self m1) = visited_pages (self m))
    as (Hf & Hc & Hd & Hv).
  { unfold Original.collect_category in Hturn.
    case_bool_decide; [by simplify_eq|].
    destruct (Original.get_subcategories_and_pages e (pop sch q))
      as [[subs pages]|]; cbn -[Nat.modulo] in Hturn;
      rewrite Hdata in Hturn; cbn -[Nat.modulo] in Hturn;
      rewrite andb_false_r in Hturn; by simplify_eq. }
  destruct (IH _ _ _ Hloop Hd) as (-> & -> & -> & ->). done.
Qed.


(** X10.  The first loop of the original scraper only gathers: in a run
    of [scrape_animals] on a freshly built scraper, as in [main], it
    calls the extractor for no page, adds no record, marks no page
    visited and writes no file, so the periodic save inside it never
    takes place. *)
Theorem original_collect_writes_nothing (e : env) (sch : schedule) (fuel : nat)
    (fs : gmap string file) (start_url : string) (q' p' : gset string)
    (m' : machine) :
  Original.collect_loop e sch fuel {[ start_url ]} ∅ (constructed fs)
    = Some (q', p', m') →
  files m' = fs
  ∧ extractor_calls m' = []
  ∧ animal_data (self m') = []
  ∧ visited_pages (self m') = ∅.
Proof.
  intros Hloop.
  destruct (collect_loop_gathers e sch fuel _ _ _ _ _ _ Hloop eq_refl)
    as (-> & -> & -> & ->).
  done.
Qed.

Lemma original_collect_writes_nothing_witness :
  Original.collect_loop Sample.savanna elements_schedule 10
    {[ Sample.start_url ]} ∅ (constructed ∅)
  = Some (default (∅, ∅, constructed ∅)
            (Original.collect_loop Sample.savanna elements_schedule 10
               {[ Sample.start_url ]} ∅ (constructed ∅)))
  ∧ files (default (∅, ∅, constructed ∅)
            (Original.collect_loop Sample.savanna elements_schedule 10
               {[ Sample.start_url ]} ∅ (constructed ∅))).2
    = ∅.
Proof.
  assert (is_Some (Original.collect_loop Sample.savanna elements_schedule 10
                     {[ Sample.start_url ]} ∅ (constructed ∅))) as [[[q p] m] H]
    by compute_done.
  rewrite H. cbn [default]. split; [done|].
  exact (proj1 (original_collect_writes_nothing Sample.savanna elements_schedule
                  10 ∅ Sample.start_url _ _ _ H)).
Defined.

(** *** The progress counters *)

Lemma improved_process_page_counters (e : env) (m : machine) (u : string) :
  u ∉ visited_pages (self m) →
  let m' := Improved.process_page e m u in
  total_categories_processed (self m') = total_categories_processed (self m)
  ∧ total_pages_found (self m') = total_pages_found (self m) + 1
  ∧ total_pages_processed (self m')
    = total_pages_processed (self m)
      + length (option_list (accepted (Improved.extract_page_info e u))).
Proof.
  intros H. unfold Improved.process_page. rewrite bool_decide_eq_false_2 by done.
  destruct (accepted _) as [r|]; simpl.
  - case_match; rewrite ?self_save_data; done.
  - split_and!; [done | done | lia].
Qed.

Lemma original_process_page_counters (e : env) (m : machine) (u : string) :
  u ∉ visited_pages (self m) →
  let m' := Original.process_page e m u in
  total_categories_processed (self m') = total_categories_processed (self m)
  ∧ total_pages_found (self m') = total_pages_found (self m)
  ∧ total_pages_processed (self m')
    = total_pages_processed (self m)
      + length (option_list (accepted (Original.extract_page_info e u))).
Proof.
  intros H. unfold Original.process_page. rewrite bool_decide_eq_false_2 by done.
  destruct (accepted _) as [r|]; simpl.
  - case_match; rewrite ?self_save_data; simpl; split_and!; done || lia.
  - split_and!; lia.
Qed.

Lemma size_insert_new (X : gset string) (x : string) :
  x ∉ X → size (X ∪ {[ x ]}) = size X + 1.
Proof.
  intros Hx. rewrite size_union, size_singleton; [done|].
  apply elem_of_disjoint. intros y Hy ->%elem_of_singleton. done.
Qed.

Lemma size_union_le (X Y : gset string) :
  (size (X ∪ Y) ≤ size X + size Y)%nat.
Proof.
  rewrite size_union_alt.
  assert (size (Y ∖ X) ≤ size Y)%nat by (apply subseteq_size; set_solver). lia.
Qed.

Lemma init_counters (fs : gmap string file) :
  total_categories_processed (self (Improved.init fs)) = 0
  ∧ total_pages_found (self (Improved.init fs)) = 0
  ∧ total_pages_processed (self (Improved.init fs)) = 0
  ∧ visited_categories (self (Improved.init fs)) = ∅
  ∧ extractor_calls (Improved.init fs) = [].
Proof.
  unfold Improved.init, Improved.load_existing_data. simpl.
  by repeat case_match.
Qed.

(** X11.  In every state of a process of the improved scraper the
    progress counters are exact: [total_categories_processed] is the
    number of visited categories; [total_pages_found] is the number of
    extractor calls and of pages marked visited since the start; and
    [total_pages_processed] is the number of records added to those
    loaded from the checkpoint. *)
Theorem improved_statistics (e : env) (fs : gmap string file) (m : machine) :
  improved_state e fs m →
  total_categories_processed (self m) = size (visited_categories (self m))
  ∧ total_pages_found (self m) = length (extractor_calls m)
  ∧ size (visited_pages (self m))
    = size (visited_pages (self (Improved.init fs))) + total_pages_found (self m)
  ∧ length (animal_data (self m))
    = length (checkpointed fs) + total_pages_processed (self m).
Proof.
  induction 1 as [| m c _ (IH1 & IH2 & IH3 & IH4) Hc
                  | m u _ (IH1 & IH2 & IH3 & IH4)].
  - destruct (init_counters fs) as (-> & -> & -> & -> & ->).
    unfold checkpointed. simpl. split_and!; [done | done | lia | lia].
  - simpl. rewrite size_insert_new by done. split_and!; [lia | done..].
  - destruct (decide (u ∈ visited_pages (self m))) as [Hu|Hu].
    + by rewrite improved_process_page_visited.
    + destruct (improved_process_page_new e m u Hu) as (-> & -> & -> & ->).
      destruct (improved_process_page_counters e m u Hu) as (-> & -> & ->).
      rewrite size_insert_new by done. rewrite !length_app. simpl.
      split_and!; lia.
Qed.

Lemma improved_state_pages (e : env) (fs : gmap string file) (l : list string)
    (m : machine) :
  improved_state e fs m → improved_state e fs (foldl (Improved.process_page e) m l).
Proof.
  revert m. induction l as [|u l IH]; intros m Hm; simpl; [done|].
  apply IH. by constructor.
Qed.

Lemma improved_state_visit (e : env) (fs : gmap string file) (sch : schedule)
    (q : gset string) (m : machine) (c : string) :
  improved_state e fs m →
  improved_state e fs (Improved.visit_category e sch q m c).2.
Proof.
  intros Hm. unfold Improved.visit_category. case_bool_decide as Hc; [done|].
  destruct (Improved.get_subcategories_and_pages e c) as [[subs pages]|];
    cbn [snd].
  - apply improved_state_pages. by constructor.
  - by constructor.
Qed.

Lemma improved_state_loop (e : env) (fs : gmap string file) (sch : schedule)
    (fuel : nat) (q q' : gset string) (m m' : machine) :
  Improved.scrape_loop e sch fuel q m = Some (q', m') →
  improved_state e fs m → improved_state e fs m'.
Proof.
  revert q m. induction fuel as [|fuel IH]; intros q m; cbn [Improved.scrape_loop];
    [done|].
  case_decide; [by intros [= _ <-]|].
  destruct (Improved.visit_category e sch (q ∖ {[pop sch q]}) m (pop sch q))
    as [q1 m1] eqn:Hv.
  intros Hloop Hm. eapply IH; [done|].
  pose proof (improved_state_visit e fs sch (q ∖ {[pop sch q]}) m (pop sch q) Hm)
    as Hr. by rewrite Hv in Hr.
Qed.

Lemma crawl_improved_state (e : env) (fs : gmap string file) :
  is_Some (Improved.scrape_animals e elements_schedule 10 Sample.start_url
             (Improved.init fs)) →
  improved_state e fs (Sample.crawl e fs).2.
Proof.
  intros H. pose proof (scrape_crawl e fs H) as Hrun.
  destruct (Sample.crawl e fs) as [q m]. unfold Improved.scrape_animals in Hrun.
  eapply improved_state_loop; [done | constructor].
Qed.

Lemma savanna_crawl_state :
  improved_state Sample.savanna ∅ (Sample.crawl Sample.savanna ∅).2.
Proof. apply crawl_improved_state. compute_done. Qed.

Lemma improved_statistics_witness :
  improved_state Sample.savanna ∅ (Sample.crawl Sample.savanna ∅).2
  ∧ total_categories_processed (self (Sample.crawl Sample.savanna ∅).2)
    = size (visited_categories (self (Sample.crawl Sample.savanna ∅).2))
  ∧ total_pages_found (self (Sample.crawl Sample.savanna ∅).2)
    = length (extractor_calls (Sample.crawl Sample.savanna ∅).2)
  ∧ size (visited_pages (self (Sample.crawl Sample.savanna ∅).2))
    = size (visited_pages (self (Improved.init ∅)))
      + total_pages_found (self (Sample.crawl Sample.savanna ∅).2)
  ∧ length (animal_data (self (Sample.crawl Sample.savanna ∅).2))
    = length (checkpointed ∅)
      + total_pages_processed (self (Sample.crawl Sample.savanna ∅).2).
Proof.
  split; [exact savanna_crawl_state|].
  exact (improved_statistics Sample.savanna ∅ _ savanna_crawl_state).
Defined.

Lemma original_state_invariant (e : env) (fs : gmap string file) (m : machine) :
  original_state e fs m →
  total_categories_processed (self m) = size (visited_categories (self m))
  ∧ total_pages_processed (self m) = length (animal_data (self m)).
Proof.
  induction 1 as [| m c _ [IH1 IH2] Hc | m k _ [IH1 IH2] | m name _ [IH1 IH2]
                  | m u _ [IH1 IH2]].
  - done.
  - simpl. rewrite size_insert_new by done. split; [lia | done].
  - done.
  - by rewrite self_save_data.
  - destruct (decide (u ∈ visited_pages (self m))) as [Hu|Hu].
    + by rewrite original_process_page_visited.
    + destruct (original_process_page_new e m u Hu) as (_ & -> & _ & ->).
      destruct (original_process_page_counters e m u Hu) as (-> & _ & ->).
      rewrite length_app. split; lia.
Qed.

Lemma original_state_collect (e : env) (fs : gmap string file)
    (q p : gset string) (m : machine) (c : string) :
  original_state e fs m →
  original_state e fs (Original.collect_category e q p m c).2.
Proof.
  intros Hm. unfold Original.collect_category. case_bool_decide as Hc; [done|].
  assert (original_state e fs (enter_category m c)) as Hm' by by constructor.
  destruct (Original.get_subcategories_and_pages e c) as [[subs pages]|];
    cbn -[Nat.modulo].
  - case_match; cbn [snd]; [constructor|]; by constructor.
  - case_match; cbn [snd]; [by constructor | done].
Qed.

Lemma original_state_loop (e : env) (fs : gmap string file) (sch : schedule)
    (fuel : nat) (q p q' p' : gset string) (m m' : machine) :
  Original.collect_loop e sch fuel q p m = Some (q', p', m') →
  original_state e fs m → original_state e fs m'.
Proof.
  revert q p m. induction fuel as [|fuel IH]; intros q p m;
    cbn [Original.collect_loop]; [done|].
  case_decide; [by intros [= _ _ <-]|].
  destruct (Original.collect_category e (q ∖ {[pop sch q]}) p m (pop sch q))
    as [[q1 p1] m1] eqn:Hv.
  intros Hloop Hm. eapply IH; [done|].
  pose proof (original_state_collect e fs (q ∖ {[pop sch q]}) p m (pop sch q) Hm)
    as Hr. by rewrite Hv in Hr.
Qed.

Lemma original_state_pages (e : env) (fs : gmap string file) (l : list string)
    (m : machine) :
  original_state e fs m → original_state e fs (foldl (Original.process_page e) m l).
Proof.
  revert m. induction l as [|u l IH]; intros m Hm; simpl; [done|].
  apply IH. by constructor.
Qed.

Lemma original_collect_found (e : env) (sch : schedule) (fuel : nat)
    (q p q' p' : gset string) (m m' : machine) :
  Original.collect_loop e sch fuel q p m = Some (q', p', m') →
  (size p' + total_pages_found (self m) ≤ size p + total_pages_found (self m'))%nat.
Proof.
  revert q p m. induction fuel as [|fuel IH]; intros q p m;
    cbn [Original.collect_loop]; [done|].
  case_decide; [intros [= _ <- <-]; lia|].
  destruct (decide (pop sch q ∈ visited_categories (self m))) as [Hc|Hc].
  - rewrite original_collect_skip by done. apply IH.
  - destruct (Original.collect_category e (q ∖ {[pop sch q]}) p m (pop sch q))
      as [[q1 p1] m1] eqn:Hv.
    intros Hloop. specialize (IH _ _ _ Hloop).
    assert (size p1 + total_pages_found (self m)
            ≤ size p + total_pages_found (self m1))%nat; [|lia].
    unfold Original.collect_category in Hv.
    rewrite bool_decide_eq_false_2 in Hv by done.
    destruct (Original.get_subcategories_and_pages e (pop sch q))
      as [[subs pages]|]; cbn -[Nat.modulo] in Hv.
    + assert (size p1 ≤ size p + size (filter (λ page, page ∉ visited_pages (self m)) pages))%nat
        as Hp1.
      { assert (p1 = p ∪ filter (λ page, page ∉ visited_pages (self m)) pages)
          as -> by (by case_match; simplify_eq).
        apply size_union_le. }
      assert (total_pages_found (self m1)
              = total_pages_found (self m)
                + size (filter (λ page, page ∉ visited_pages (self m)) pages))
        as ->; [|lia].
      case_match; simplify_eq; by rewrite ?self_save_data.
    + assert (p1 = p ∧ self m1 = self (enter_category m (pop sch q))) as [-> ->].
      { case_match; simplify_eq; by rewrite ?self_save_data. }
      simpl. lia.
Qed.

Lemma original_pages_found (e : env) (l : list string) (m : machine) :
  total_pages_found (self (foldl (Original.process_page e) m l))
  = total_pages_found (self m).
Proof.
  revert m. induction l as [|u l IH]; intros m; simpl; [done|].
  rewrite IH. destruct (decide (u ∈ visited_pages (self m))) as [Hu|Hu].
  - by rewrite original_process_page_visited.
  - by destruct (original_process_page_counters e m u Hu) as (_ & -> & _).
Qed.

(** X12.  At the end of a run of the original scraper started empty,
    [total_categories_processed] is the number of visited categories and
    [total_pages_processed] the number of records, while
    [total_pages_found] is only an upper bound of the number of pages
    visited: a page listed by several categories is counted for each. *)
Theorem original_statistics (e : env) (sch : schedule) (fuel : nat)
    (fs : gmap string file) (start_url : string) (q : gset string)
    (m' : machine) :
  schedule_ok sch →
  Original.scrape_animals e sch fuel start_url (constructed fs) = Some (q, m') →
  total_categories_processed (self m') = size (visited_categories (self m'))
  ∧ total_pages_processed (self m') = length (animal_data (self m'))
  ∧ (size (visited_pages (self m')) ≤ total_pages_found (self m'))%nat.
Proof.
  intros Hsch. unfold Original.scrape_animals.
  destruct (Original.collect_loop e sch fuel {[start_url]} ∅ (constructed fs))
    as [[[q1 p1] m1]|] eqn:Hloop; [|done].
  intros [= <- <-].
  assert (original_state e fs (foldl (Original.process_page e) m1 (iter sch p1)))
    as Hstate.
  { apply original_state_pages. eapply original_state_loop; [done | constructor]. }
  destruct (original_state_invariant e fs _ Hstate) as [H1 H2].
  split_and!; [done | done |].
  destruct (collect_loop_gathers e sch fuel _ _ _ _ _ _ Hloop eq_refl)
    as (_ & _ & Hdata & Hvp).
  pose proof (original_collect_found e sch fuel _ _ _ _ _ _ Hloop) as Hfound.
  rewrite size_empty in Hfound. simpl in Hfound, Hvp.
  assert (crawl_ok m1) as Hok.
  { unfold crawl_ok. rewrite Hdata, Hvp. split; [constructor | set_solver]. }
  destruct (fold_pages (Original.process_page e)
              (λ u, accepted (Original.extract_page_info e u))
              (original_process_page_visited e)) with
    (l := iter sch p1) (m := m1) as (_ & Hvp' & _ & _); [| |done|].
  { intros m2 u Hu.
    destruct (original_process_page_new e m2 u Hu) as (?&?&?&?). done. }
  { intros u r. apply original_accepted_url. }
  rewrite Hvp', Hvp, iter_set, original_pages_found by done.
  rewrite (left_id_L ∅ (∪)). lia.
Qed.

Lemma original_statistics_witness :
  schedule_ok elements_schedule
  ∧ Original.scrape_animals Sample.savanna elements_schedule 10 Sample.start_url
      (constructed ∅)
    = Some (default (∅, constructed ∅)
              (Original.scrape_animals Sample.savanna elements_schedule 10
                 Sample.start_url (constructed ∅)))
  ∧ let m' := (default (∅, constructed ∅)
                 (Original.scrape_animals Sample.savanna elements_schedule 10
                    Sample.start_url (constructed ∅))).2 in
    total_categories_processed (self m') = size (visited_categories (self m'))
    ∧ total_pages_processed (self m') = length (animal_data (self m'))
    ∧ (size (visited_pages (self m')) ≤ total_pages_found (self m'))%nat.
Proof.
  split; [exact elements_schedule_ok|].
  assert (is_Some (Original.scrape_animals Sample.savanna elements_schedule 10
                     Sample.start_url (constructed ∅))) as [[q m] H]
    by compute_done.
  rewrite H. cbn [default snd]. split; [done|].
  exact (original_statistics Sample.savanna elements_schedule 10 ∅
           Sample.start_url q m elements_schedule_ok H).
Defined.

(** *** How far the checkpoint lags behind *)

Lemma checkpointed_lookup (fs : gmap string file) :
  checkpointed fs = match fs !! partial_file with
                    | Some (JsonArray entries) => entries
                    | _ => []
                    end.
Proof.
  unfold checkpointed, Improved.init, Improved.load_existing_data. simpl.
  by repeat case_match.
Qed.

Lemma checkpointed_save_partial (e : env) (m : machine) :
  write_outcome e partial_file = Written →
  checkpointed (files (save_data e partial_file m)) = animal_data (self m).
Proof.
  intros Hw. rewrite checkpointed_lookup. unfold save_data. rewrite Hw. simpl.
  by rewrite lookup_insert_eq.
Qed.

Lemma checkpointed_save_main (e : env) (m : machine) :
  checkpointed (files (save_data e main_file m)) = checkpointed (files m).
Proof.
  rewrite !checkpointed_lookup. unfold save_data.
  destruct (write_outcome e main_file); simpl;
    by rewrite ?lookup_insert_ne by done.
Qed.

Lemma multiple_of_ten_between (a b : nat) :
  (a + 10 ≤ b)%nat → ∃ k, (a < k ≤ b)%nat ∧ k mod 10 = 0.
Proof.
  intros H. exists (10 * (a / 10 + 1)).
  pose proof (Nat.div_mod_eq a 10) as Hdiv.
  pose proof (Nat.mod_upper_bound a 10) as Hmod.
  split; [lia|]. rewrite Nat.mul_comm. apply Nat.Div0.mod_mul.
Qed.

Lemma checkpoint_invariant (e : env) (fs : gmap string file) (m : machine) :
  write_outcome e partial_file = Written →
  improved_state e fs m →
  checkpointed (files m) `prefix_of` animal_data (self m)
  ∧ ∀ k, (length (checkpointed (files m)) < k
          ≤ length (animal_data (self m)))%nat →
         k mod 10 ≠ 0.
Proof.
  intros Hw. induction 1 as [| m c _ IH Hc | m u _ [IHp IHk]].
  - rewrite files_init. unfold checkpointed. split; [done | lia].
  - done.
  - unfold Improved.process_page. case_bool_decide as Hu; [done|].
    destruct (accepted _) as [r|]; cbn -[Nat.modulo]; [|done].
    rewrite length_app. cbn -[Nat.modulo].
    destruct (_ =? 0)%nat eqn:Hten.
    + rewrite checkpointed_save_main, checkpointed_save_partial by done.
      rewrite !self_save_data. cbn -[Nat.modulo]. split; [done|].
      intros k. rewrite ?length_app. cbn -[Nat.modulo]. intros Hk. exfalso.
      clear -Hk. lia.
    + cbn -[Nat.modulo]. split; [by apply prefix_app_r|].
      intros k Hk. apply Nat.eqb_neq in Hten.
      destruct (decide (k = length (animal_data (self m)) + 1)) as [->|Hne];
        [done|]. apply IHk. rewrite length_app in Hk. simpl in Hk.
      clear -Hk Hne. lia.
Qed.

Lemma lag_bound (saved held : list record) :
  (∀ k, (length saved < k ≤ length held)%nat → k mod 10 ≠ 0) →
  length held < length saved + 10.
Proof.
  intros Hk.
  destruct (decide (length held < length saved + 10)) as [|Hge]; [done|].
  destruct (multiple_of_ten_between (length saved) (length held))
    as (k & Hin & Hten); [lia|].
  by destruct (Hk k Hin).
Qed.

(** X13.  As long as writing the checkpoint file succeeds, the improved
    scraper never runs far ahead of it: in every state of a process the
    records a restart would load are a prefix of the records held, and
    fewer than ten records are missing from them. *)
Theorem checkpoint_lag (e : env) (fs : gmap string file) (m : machine) :
  write_outcome e partial_file = Written →
  improved_state e fs m →
  checkpointed (files m) `prefix_of` animal_data (self m)
  ∧ length (animal_data (self m)) < length (checkpointed (files m)) + 10.
Proof.
  intros Hw Hm. destruct (checkpoint_invariant e fs m Hw Hm) as [Hp Hk].
  split; [done | by apply lag_bound].
Qed.

Lemma herd_crawl_state :
  improved_state Sample.herd ∅ (Sample.crawl Sample.herd ∅).2.
Proof. apply crawl_improved_state. compute_done. Qed.

Lemma checkpoint_lag_witness :
  write_outcome Sample.herd partial_file = Written
  ∧ improved_state Sample.herd ∅ (Sample.crawl Sample.herd ∅).2
  ∧ checkpointed (files (Sample.crawl Sample.herd ∅).2)
    `prefix_of` animal_data (self (Sample.crawl Sample.herd ∅).2)
  ∧ length (animal_data (self (Sample.crawl Sample.herd ∅).2))
    < length (checkpointed (files (Sample.crawl Sample.herd ∅).2)) + 10.
Proof.
  split; [reflexivity|]. split; [exact herd_crawl_state|].
  exact (checkpoint_lag Sample.herd ∅ _ eq_refl herd_crawl_state).
Defined.

(** X14.  When both files can be written, [main] of the improved scraper
    leaves in the output file exactly the records it holds at the end,
    and in the checkpoint file a prefix of them that is fewer than ten
    records shorter. *)
Theorem final_output_extends_checkpoint (e : env) (sch : schedule) (fuel : nat)
    (fs : gmap string file) (m' : machine) :
  write_outcome e partial_file = Written →
  write_outcome e main_file = Written →
  Improved.main e sch fuel fs = Some m' →
  files m' !! main_file = Some (JsonArray (animal_data (self m')))
  ∧ checkpointed (files m') `prefix_of` animal_data (self m')
  ∧ length (animal_data (self m')) < length (checkpointed (files m')) + 10.
Proof.
  intros Hp Hmain. unfold Improved.main, Improved.scrape_animals.
  destruct (Improved.scrape_loop e sch fuel _ (Improved.init fs))
    as [[q m]|] eqn:Hloop; [|done].
  intros [= <-]. rewrite checkpointed_save_main, self_save_data.
  split.
  - unfold save_data. rewrite Hmain. simpl. by rewrite lookup_insert_eq.
  - destruct (checkpoint_invariant e fs m Hp) as [Hpre Hk].
    + eapply improved_state_loop; [done | constructor].
    + split; [done | by apply lag_bound].
Qed.

Lemma final_output_extends_checkpoint_witness :
  write_outcome Sample.herd partial_file = Written
  ∧ write_outcome Sample.herd main_file = Written
  ∧ Improved.main Sample.herd elements_schedule 10 ∅ = Some Sample.herd_run
  ∧ files Sample.herd_run !! main_file
    = Some (JsonArray (animal_data (self Sample.herd_run)))
  ∧ checkpointed (files Sample.herd_run)
    `prefix_of` animal_data (self Sample.herd_run)
  ∧ length (animal_data (self Sample.herd_run))
    < length (checkpointed (files Sample.herd_run)) + 10.
Proof.
  assert (Improved.main Sample.herd elements_schedule 10 ∅ = Some Sample.herd_run)
    as H by (apply main_run; compute_done).
  split; [reflexivity|]. split; [reflexivity|]. split; [exact H|].
  exact (final_output_extends_checkpoint Sample.herd elements_schedule 10 ∅ _
           eq_refl eq_refl H).
Defined.

(** *** Which categories a crawl visits *)

Lemma frontier_start (subcats : string → gset string) (start : string) :
  frontier_invariant subcats start {[ start ]} ∅.
Proof.
  split_and!; [|set_solver..].
  intros c Hc. assert (c = start) as -> by set_solver. apply rtc_refl.
Qed.

Lemma frontier_skip (subcats : string → gset string) (start c : string)
    (q vc : gset string) :
  c ∈ vc →
  frontier_invariant subcats start q vc →
  frontier_invariant subcats start (q ∖ {[ c ]}) vc.
Proof.
  intros Hc (H1 & H2 & H3).
  assert (q ∖ {[c]} ∪ vc = q ∪ vc) as Heq.
  { apply set_eq. intros x. rewrite !elem_of_union, elem_of_difference,
      elem_of_singleton. destruct (decide (x = c)) as [->|]; tauto. }
  unfold frontier_invariant. by rewrite Heq.
Qed.

Lemma frontier_enter (subcats : string → gset string) (start c : string)
    (q vc : gset string) :
  c ∈ q →
  frontier_invariant subcats start q vc →
  frontier_invariant subcats start (q ∖ {[ c ]} ∪ subcats c) (vc ∪ {[ c ]}).
Proof.
  intros Hc (H1 & H2 & H3).
  assert (q ∖ {[c]} ∪ subcats c ∪ (vc ∪ {[c]}) = q ∪ vc ∪ subcats c) as Heq.
  { apply set_eq. intros x. rewrite !elem_of_union, elem_of_difference,
      elem_of_singleton. destruct (decide (x = c)) as [->|]; tauto. }
  unfold frontier_invariant. rewrite Heq. split_and!.
  - intros x [Hx|Hx]%elem_of_union; [by apply H1|].
    eapply rtc_r; [apply (H1 c); by apply elem_of_union_l | done].
  - by apply elem_of_union_l.
  - intros x [Hx| ->%elem_of_singleton]%elem_of_union.
    + etrans; [by apply H3 | apply union_subseteq_l].
    + apply union_subseteq_r.
Qed.

Lemma frontier_drained (subcats : string → gset string) (start : string)
    (vc : gset string) :
  frontier_invariant subcats start ∅ vc →
  ∀ c, c ∈ vc ↔ category_reachable subcats start c.
Proof.
  intros (H1 & H2 & H3) c. rewrite (left_id_L ∅ (∪)) in H1, H2. split.
  - apply H1.
  - unfold category_reachable. revert c. apply rtc_ind_r; [done|].
    intros a b _ Hab IH. specialize (H3 _ IH b Hab).
    by rewrite (left_id_L ∅ (∪)) in H3.
Qed.

Lemma improved_visit_frontier (e : env) (sch : schedule) (q : gset string)
    (m : machine) (c : string) :
  c ∉ visited_categories (self m) →
  (Improved.visit_category e sch q m c).1 = q ∪ subcategories_of improved e c
  ∧ visited_categories (self (Improved.visit_category e sch q m c).2)
    = visited_categories (self m) ∪ {[ c ]}.
Proof.
  intros Hc. unfold Improved.visit_category, subcategories_of, explore.
  rewrite bool_decide_eq_false_2 by done.
  destruct (Improved.get_subcategories_and_pages e c) as [[subs pages]|];
    cbn [fst snd Graph.links].
  - by destruct (improved_pages_categories e (iter sch pages) (enter_category m c))
      as [-> _].
  - by rewrite (right_id_L ∅ (∪)).
Qed.

Lemma improved_loop_frontier (e : env) (sch : schedule) (start : string)
    (fuel : nat) (q q' : gset string) (m m' : machine) :
  schedule_ok sch →
  Improved.scrape_loop e sch fuel q m = Some (q', m') →
  frontier_invariant (subcategories_of improved e) start q
    (visited_categories (self m)) →
  q' = ∅
  ∧ frontier_invariant (subcategories_of improved e) start ∅
      (visited_categories (self m')).
Proof.
  intros Hsch. revert q m.
  induction fuel as [|fuel IH]; intros q m; cbn [Improved.scrape_loop]; [done|].
  case_decide as Hq; [intros [= <- <-]; by subst|].
  assert (pop sch q ∈ q) as Hpop by by apply Hsch.
  destruct (decide (pop sch q ∈ visited_categories (self m))) as [Hc|Hc].
  - rewrite improved_visit_skip by done. intros Hloop Hinv.
    eapply IH; [done|]. by apply frontier_skip.
  - destruct (improved_visit_frontier e sch (q ∖ {[pop sch q]}) m (pop sch q) Hc)
      as [Hq1 Hvc1].
    destruct (Improved.visit_category e sch (q ∖ {[pop sch q]}) m (pop sch q))
      as [q1 m1]. cbn [fst snd] in Hq1, Hvc1.
    intros Hloop Hinv. eapply IH; [done|]. rewrite Hq1, Hvc1.
    by apply frontier_enter.
Qed.

Lemma original_loop_frontier (e : env) (sch : schedule) (start : string)
    (fuel : nat) (q p q' p' : gset string) (m m' : machine) :
  schedule_ok sch →
  Original.collect_loop e sch fuel q p m = Some (q', p', m') →
  frontier_invariant (subcategories_of original e) start q
    (visited_categories (self m)) →
  q' = ∅
  ∧ frontier_invariant (subcategories_of original e) start ∅
      (visited_categories (self m')).
Proof.
  intros Hsch. revert q p m.
  induction fuel as [|fuel IH]; intros q p m; cbn [Original.collect_loop]; [done|].
  case_decide as Hq; [intros [= <- _ <-]; by subst|].
  assert (pop sch q ∈ q) as Hpop by by apply Hsch.
  destruct (decide (pop sch q ∈ visited_categories (self m))) as [Hc|Hc].
  - rewrite original_collect_skip by done. intros Hloop Hinv.
    eapply IH; [done|]. by apply frontier_skip.
  - destruct (original_collect_new e (q ∖ {[pop sch q]}) p m (pop sch q) Hc)
      as (Hq1 & _ & _ & Hvc1 & _).
    destruct (Original.collect_category e (q ∖ {[pop sch q]}) p m (pop sch q))
      as [[q1 p1] m1]. cbn [fst snd] in Hq1, Hvc1.
    intros Hloop Hinv. eapply IH; [done|]. rewrite Hq1, Hvc1.
    by apply frontier_enter.
Qed.

Lemma original_pages_categories (e : env) (l : list string) (m : machine) :
  visited_categories (self (foldl (Original.process_page e) m l))
  = visited_categories (self m).
Proof.
  revert m. induction l as [|u l IH]; intros m; simpl; [done|].
  rewrite IH. destruct (decide (u ∈ visited_pages (self m))) as [Hu|Hu].
  - by rewrite original_process_page_visited.
  - by destruct (original_process_page_new e m u Hu) as (_ & -> & _).
Qed.

Lemma crawl_frontier (v : variant) (e : env) (sch : schedule)
    (fuel : nat) (start_url : string) (m : machine) (q' : gset string)
    (m' : machine) :
  schedule_ok sch →
  visited_categories (self m) = ∅ →
  scrape_animals v e sch fuel start_url m = Some (q', m') →
  q' = ∅ ∧ frontier_invariant (subcategories_of v e) start_url ∅
             (visited_categories (self m')).
Proof.
  intros Hsch Hvc Hrun. destruct v; cbn [scrape_animals] in Hrun.
  - unfold Original.scrape_animals in Hrun.
    destruct (Original.collect_loop e sch fuel {[start_url]} ∅ m)
      as [[[q1 p1] m1]|] eqn:Hloop; [|done].
    injection Hrun as <- <-. rewrite original_pages_categories.
    eapply original_loop_frontier; [done | done |].
    rewrite Hvc. apply frontier_start.
  - eapply improved_loop_frontier; [done | done |].
    rewrite Hvc. apply frontier_start.
Qed.

(** X15.  A crawl of either variant that starts with no category visited
    and comes to an end has an empty frontier and has visited exactly the
    categories that can be reached from the start category along
    admitted child-category links: none is missed and none is visited
    that is not reachable.  This holds for every order of popping the
    frontier. *)
Theorem crawl_visits_reachable (v : variant) (e : env) (sch : schedule)
    (fuel : nat) (start_url : string) (m : machine) (q' : gset string)
    (m' : machine) :
  schedule_ok sch →
  visited_categories (self m) = ∅ →
  scrape_animals v e sch fuel start_url m = Some (q', m') →
  q' = ∅
  ∧ ∀ c, c ∈ visited_categories (self m')
         ↔ category_reachable (subcategories_of v e) start_url c.
Proof.
  intros Hsch Hvc Hrun.
  destruct (crawl_frontier v e sch fuel start_url m q' m' Hsch Hvc Hrun)
    as [-> Hinv].
  split; [done|]. by apply frontier_drained.
Qed.

Lemma crawl_visits_reachable_witness :
  schedule_ok elements_schedule
  ∧ visited_categories (self (Improved.init ∅)) = ∅
  ∧ scrape_animals improved Sample.savanna elements_schedule 10 Sample.start_url
      (Improved.init ∅) = Some (Sample.crawl Sample.savanna ∅)
  ∧ (Sample.crawl Sample.savanna ∅).1 = ∅
  ∧ ∀ c, c ∈ visited_categories (self (Sample.crawl Sample.savanna ∅).2)
         ↔ category_reachable (subcategories_of improved Sample.savanna)
             Sample.start_url c.
Proof.
  assert (scrape_animals improved Sample.savanna elements_schedule 10
            Sample.start_url (Improved.init ∅)
          = Some (Sample.crawl Sample.savanna ∅)) as H
    by (apply scrape_crawl; compute_done).
  split; [exact elements_schedule_ok|]. split; [reflexivity|].
  split; [exact H|].
  destruct (Sample.crawl Sample.savanna ∅) as [q m] eqn:Hcrawl.
  exact (crawl_visits_reachable improved Sample.savanna elements_schedule 10
           Sample.start_url (Improved.init ∅) q m elements_schedule_ok
           eq_refl H).
Defined.

(** ** Which pages a crawl visits *)

(** X16.  On a site with finitely many topical categories, a crawl of
    either variant that starts with no category visited ends having
    visited exactly the pages visited before plus every page listed by a
    category reachable from the start category. *)
Theorem crawl_visits_pages_of_reachable (v : variant) (e : env) (sch : schedule)
    (U : gset string) (start_url : string) (m : machine) (fuel : nat) :
  schedule_ok sch →
  start_url ∈ U →
  Graph.closed (subcategories_of v e) U →
  crawl_ok m →
  visited_categories (self m) = ∅ →
  size U * (size U + 1) + 1 < fuel →
  ∃ m',
    scrape_animals v e sch fuel start_url m = Some (∅, m')
    ∧ ∀ u, u ∈ visited_pages (self m') ↔
        u ∈ visited_pages (self m)
        ∨ ∃ c, category_reachable (subcategories_of v e) start_url c
               ∧ u ∈ pages_of v e c.
Proof.
  intros Hsch Hstart Hclosed Hok Hvc Hfuel.
  assert (∃ m', scrape_animals v e sch fuel start_url m = Some (∅, m')
                ∧ loop_invariant v e U m ∅ m') as (m' & Hrun & Hinv).
  { destruct v; [by apply original_crawl | by apply improved_crawl]. }
  exists m'. split; [done|].
  destruct (crawl_frontier v e sch fuel start_url m ∅ m' Hsch Hvc Hrun)
    as [_ Hfront].
  pose proof (frontier_drained _ _ _ Hfront) as Hreach.
  destruct Hinv as (_ & _ & _ & Hvp & _). intros u.
  rewrite Hvp, Hvc, elem_of_union. unfold Graph.discovered.
  rewrite elem_of_set_bind. split.
  - intros [?|(c & Hc & Hu)]; [by left|]. right. exists c. split; [|done].
    apply Hreach. by apply elem_of_difference in Hc as [Hc _].
  - intros [?|(c & Hc & Hu)]; [by left|]. right. exists c. split; [|done].
    apply elem_of_difference. split; [by apply Hreach | set_solver].
Qed.

Lemma crawl_visits_pages_of_reachable_witness :
  schedule_ok elements_schedule
  ∧ Sample.start_url
    ∈ ({[ Sample.start_url; base_url +:+ "/wiki/Category:Mammals" ]} : gset string)
  ∧ Graph.closed (subcategories_of improved Sample.savanna)
      {[ Sample.start_url; base_url +:+ "/wiki/Category:Mammals" ]}
  ∧ crawl_ok (constructed ∅)
  ∧ visited_categories (self (constructed ∅)) = ∅
  ∧ ∃ m',
      scrape_animals improved Sample.savanna elements_schedule 10
        Sample.start_url (constructed ∅) = Some (∅, m')
      ∧ ∀ u, u ∈ visited_pages (self m') ↔
          u ∈ visited_pages (self (constructed ∅))
          ∨ ∃ c, category_reachable (subcategories_of improved Sample.savanna)
                   Sample.start_url c
                 ∧ u ∈ pages_of improved Sample.savanna c.
Proof.
  assert (Sample.start_url
          ∈ ({[ Sample.start_url; base_url +:+ "/wiki/Category:Mammals" ]}
             : gset string)) as Hstart
    by (apply elem_of_union; left; by apply elem_of_singleton).
  split; [exact elements_schedule_ok|].
  split; [exact Hstart|].
  split; [exact savanna_closed|].
  split; [exact (crawl_ok_constructed ∅)|].
  split; [reflexivity|].
  exact (crawl_visits_pages_of_reachable improved Sample.savanna
           elements_schedule _ Sample.start_url (constructed ∅) 10
           elements_schedule_ok Hstart savanna_closed (crawl_ok_constructed ∅)
           eq_refl savanna_fuel).
Defined.


(** ** What a run reads and writes of the disk *)

Lemma save_data_other (e : env) (filename name : string) (m : machine) :
  name ≠ filename → files (save_data e filename m) !! name = files m !! name.
Proof.
  intros Hne. unfold save_data.
  destruct (write_outcome e filename); simpl; by rewrite ?lookup_insert_ne.
Qed.

Lemma improved_process_page_other (e : env) (m : machine) (u name : string) :
  name ≠ main_file → name ≠ partial_file →
  files (Improved.process_page e m u) !! name = files m !! name.
Proof.
  intros H1 H2. unfold Improved.process_page. case_bool_decide; [done|].
  destruct (accepted _) as [r|]; cbn -[Nat.modulo]; [|done].
  case_match; [|done]. by rewrite !save_data_other.
Qed.

Lemma original_process_page_other (e : env) (m : machine) (u name : string) :
  name ≠ main_file → name ≠ partial_file →
  files (Original.process_page e m u) !! name = files m !! name.
Proof.
  intros H1 H2. unfold Original.process_page. case_bool_decide; [done|].
  destruct (accepted _) as [r|]; cbn -[Nat.modulo]; [|done].
  case_match; [|done]. by rewrite !save_data_other.
Qed.

Lemma improved_pages_other (e : env) (l : list string) (m : machine)
    (name : string) :
  name ≠ main_file → name ≠ partial_file →
  files (foldl (Improved.process_page e) m l) !! name = files m !! name.
Proof.
  intros H1 H2. revert m. induction l as [|u l IH]; intros m; simpl; [done|].
  by rewrite IH, improved_process_page_other.
Qed.

Lemma original_pages_other (e : env) (l : list string) (m : machine)
    (name : string) :
  name ≠ main_file → name ≠ partial_file →
  files (foldl (Original.process_page e) m l) !! name = files m !! name.
Proof.
  intros H1 H2. revert m. induction l as [|u l IH]; intros m; simpl; [done|].
  by rewrite IH, original_process_page_other.
Qed.

Lemma improved_loop_other (e : env) (sch : schedule) (fuel : nat)
    (q q' : gset string) (m m' : machine) (name : string) :
  name ≠ main_file → name ≠ partial_file →
  Improved.scrape_loop e sch fuel q m = Some (q', m') →
  files m' !! name = files m !! name.
Proof.
  intros H1 H2. revert q m.
  induction fuel as [|fuel IH]; intros q m; cbn [Improved.scrape_loop]; [done|].
  case_decide; [by intros [= _ <-]|].
  destruct (Improved.visit_category e sch (q ∖ {[pop sch q]}) m (pop sch q))
    as [q1 m1] eqn:Hv.
  intros Hloop. rewrite (IH _ _ Hloop).
  unfold Improved.visit_category in Hv. case_bool_decide; [by simplify_eq|].
  destruct (Improved.get_subcategories_and_pages e (pop sch q))
    as [[subs pages]|]; simplify_eq; [|done].
  by rewrite improved_pages_other.
Qed.

Lemma original_loop_other (e : env) (sch : schedule) (fuel : nat)
    (q p q' p' : gset string) (m m' : machine) (name : string) :
  name ≠ main_file → name ≠ partial_file →
  Original.collect_loop e sch fuel q p m = Some (q', p', m') →
  files m' !! name = files m !! name.
Proof.
  intros H1 H2. revert q p m.
  induction fuel as [|fuel IH]; intros q p m; cbn [Original.collect_loop]; [done|].
  case_decide; [by intros [= _ _ <-]|].
  destruct (Original.collect_category e (q ∖ {[pop sch q]}) p m (pop sch q))
    as [[q1 p1] m1] eqn:Hv.
  intros Hloop. rewrite (IH _ _ _ Hloop).
  unfold Original.collect_category in Hv. case_bool_decide; [by simplify_eq|].
  destruct (Original.get_subcategories_and_pages e (pop sch q))
    as [[subs pages]|]; cbn -[Nat.modulo] in Hv; case_match; simplify_eq;
    by rewrite ?save_data_other.
Qed.

(** X17.  A whole run of either program, [main] included, touches no
    file other than "animal_data.json" and "animal_data_partial.json":
    every other path holds at the end what it held at the start. *)
Theorem run_writes_two_files (v : variant) (e : env) (sch : schedule)
    (fuel : nat) (fs : gmap string file) (m' : machine) (name : string) :
  match v with
  | original => Original.main e sch fuel fs
  | improved => Improved.main e sch fuel fs
  end = Some m' →
  name ≠ main_file → name ≠ partial_file →
  files m' !! name = fs !! name.
Proof.
  intros Hrun H1 H2. destruct v.
  - unfold Original.main, Original.scrape_animals in Hrun.
    destruct (Original.collect_loop e sch fuel _ ∅ (constructed fs))
      as [[[q p] m]|] eqn:Hloop; [|done].
    injection Hrun as <-.
    rewrite save_data_other, original_pages_other by done.
    by rewrite (original_loop_other _ _ _ _ _ _ _ _ _ name H1 H2 Hloop).
  - unfold Improved.main, Improved.scrape_animals in Hrun.
    destruct (Improved.scrape_loop e sch fuel _ (Improved.init fs))
      as [[q m]|] eqn:Hloop; [|done].
    injection Hrun as <-. rewrite save_data_other by done.
    rewrite (improved_loop_other _ _ _ _ _ _ _ name H1 H2 Hloop).
    by rewrite files_init.
Qed.

Lemma run_writes_two_files_witness :
  Improved.main Sample.herd elements_schedule 10 ∅ = Some Sample.herd_run
  ∧ "notes.txt" ≠ main_file ∧ "notes.txt" ≠ partial_file
  ∧ files Sample.herd_run !! "notes.txt" = (∅ : gmap string file) !! "notes.txt".
Proof.
  assert (Improved.main Sample.herd elements_schedule 10 ∅ = Some Sample.herd_run)
    as H by (apply main_run; compute_done).
  assert ("notes.txt" ≠ main_file) as H1 by done.
  assert ("notes.txt" ≠ partial_file) as H2 by done.
  split; [exact H|]. split; [exact H1|]. split; [exact H2|].
  exact (run_writes_two_files improved Sample.herd elements_schedule 10 ∅
           Sample.herd_run "notes.txt" H H1 H2).
Defined.

Lemma save_data_same (e : env) (filename : string) (m1 m2 : machine) :
  self m1 = self m2 ∧ extractor_calls m1 = extractor_calls m2 →
  self (save_data e filename m1) = self (save_data e filename m2)
  ∧ extractor_calls (save_data e filename m1)
    = extractor_calls (save_data e filename m2).
Proof. by rewrite !self_save_data, !calls_save_data. Qed.











(** ** Properties of the upload monitor *)

Lemma sweep_entry (w : Uploader.snapshot) (entries : list (string * nat))
    (attempts : list string) (filename : string) :
  (Uploader.sweep w entries attempts).1.*1 = entries.*1
  ∧ ∀ last, (filename, last) ∈ entries →
      (filename,
       if Uploader.path_exists w filename
       then last `max` Uploader.path_getsize w filename else last)
      ∈ (Uploader.sweep w entries attempts).1.
Proof.
  revert attempts. induction entries as [|[name last0] rest IH];
    intros attempts; cbn [Uploader.sweep]; [split; [done | by intros ? ?%elem_of_nil]|].
  set (step := if Uploader.path_exists w name then _ else _).
  assert (step.1 = (name,
            if Uploader.path_exists w name
            then last0 `max` Uploader.path_getsize w name else last0)) as Hstep.
  { unfold step. destruct (Uploader.path_exists w name); [|done].
    destruct (last0 <? Uploader.path_getsize w name)%nat eqn:Hlt; cbn [fst].
    - apply Nat.ltb_lt in Hlt. f_equal. lia.
    - apply Nat.ltb_ge in Hlt. f_equal. lia. }
  destruct step as [entry attempts1]. cbn [fst] in Hstep. subst entry.
  destruct (IH attempts1) as [IHk IHin].
  destruct (Uploader.sweep w rest attempts1) as [rest' attempts2].
  cbn [fst snd fmap list_fmap] in *. split; [by f_equal|].
  intros last [[= -> ->]|Hin]%elem_of_cons; [by left|].
  right. by apply IHin.
Qed.

Lemma monitor_entry (seen : list Uploader.snapshot) (filename : string) :
  (Uploader.monitor_and_upload seen).1.*1 = Uploader.initial_sizes.*1
  ∧ ((filename, 0) ∈ Uploader.initial_sizes →
     (filename, foldl Nat.max 0 (Uploader.sizes_seen filename seen))
     ∈ (Uploader.monitor_and_upload seen).1).
Proof.
  unfold Uploader.monitor_and_upload.
  induction seen as [|w seen IH] using rev_ind; [done|].
  rewrite foldl_app. cbn [foldl]. destruct IH as [IHk IHin].
  destruct (sweep_entry w (foldl (λ st w0, Uploader.sweep w0 st.1 st.2)
                             (Uploader.initial_sizes, []) seen).1
              (foldl (λ st w0, Uploader.sweep w0 st.1 st.2)
                 (Uploader.initial_sizes, []) seen).2 filename) as [Hk Hin].
  split; [by rewrite Hk|].
  intros H0. specialize (Hin _ (IHin H0)).
  unfold Uploader.sizes_seen. rewrite omap_app, foldl_app.
  cbn [omap list_omap]. 
  destruct (Uploader.path_exists w filename); cbn [foldl]; done.
Qed.

(** X19.  However the files change while the monitor runs, after any
    number of passes its dictionary still has the two file names it
    started with, in the same order, and the size it has on record for
    each of them is the largest size seen in a pass in which the file
    existed (0 if there was none). *)
Theorem monitor_records_largest_size (seen : list Uploader.snapshot) :
  (Uploader.monitor_and_upload seen).1.*1 = [main_file; partial_file]
  ∧ (main_file, foldl Nat.max 0 (Uploader.sizes_seen main_file seen))
    ∈ (Uploader.monitor_and_upload seen).1
  ∧ (partial_file, foldl Nat.max 0 (Uploader.sizes_seen partial_file seen))
    ∈ (Uploader.monitor_and_upload seen).1.
Proof.
  split_and!.
  - by destruct (monitor_entry seen main_file) as [-> _].
  - apply monitor_entry. by left.
  - apply monitor_entry. right. by left.
Qed.

Lemma sweep_settled (w : Uploader.snapshot) (entries : list (string * nat))
    (attempts : list string) :
  (∀ filename last, (filename, last) ∈ entries →
     Uploader.path_exists w filename = true →
     (Uploader.path_getsize w filename ≤ last)%nat) →
  Uploader.sweep w entries attempts = (entries, attempts).
Proof.
  induction entries as [|[name last] rest IH]; intros H; cbn [Uploader.sweep];
    [done|].
  assert (Uploader.sweep w rest attempts = (rest, attempts)) as Hrest
    by (apply IH; intros ???; apply H; by right).
  destruct (Uploader.path_exists w name) eqn:Hex; [|by rewrite Hrest].
  assert (Uploader.path_getsize w name ≤ last)%nat as Hle
    by (apply H; [by left | done]).
  apply Nat.ltb_ge in Hle. by rewrite Hle, Hrest.
Qed.

Lemma sweep_settles (w : Uploader.snapshot) (entries : list (string * nat))
    (attempts : list string) :
  ∀ filename last, (filename, last) ∈ (Uploader.sweep w entries attempts).1 →
    Uploader.path_exists w filename = true →
    (Uploader.path_getsize w filename ≤ last)%nat.
Proof.
  revert attempts. induction entries as [|[name last0] rest IH];
    intros attempts; cbn [Uploader.sweep]; [by intros ?? ?%elem_of_nil|].
  set (step := if Uploader.path_exists w name then _ else _).
  assert (Uploader.path_exists w name = true →
          step.1.1 = name ∧ (Uploader.path_getsize w name ≤ step.1.2)%nat)
    as Hstep.
  { intros Hex. unfold step. rewrite Hex.
    destruct (last0 <? Uploader.path_getsize w name)%nat eqn:Hlt; cbn [fst snd].
    - done.
    - by apply Nat.ltb_ge in Hlt. }
  assert (step.1.1 = name) as Hname.
  { unfold step. by repeat case_match. }
  destruct step as [[name' last'] attempts1]. cbn [fst snd] in *. subst name'.
  specialize (IH attempts1).
  destruct (Uploader.sweep w rest attempts1) as [rest' attempts2].
  cbn [fst] in *. intros filename last [[= -> ->]|Hin]%elem_of_cons Hex.
  - by apply Hstep.
  - by eapply IH.
Qed.

(** X20.  A pass of the monitor over files that have not grown since the
    last pass changes nothing and hands nothing to the client: a second
    pass on the same snapshot is the identity.  This also holds when the
    upload of the first pass failed, since the new size is recorded
    whatever [upload_file] returns; such a file is not tried again until
    it grows. *)
Theorem monitor_sweep_idempotent (w : Uploader.snapshot)
    (entries : list (string * nat)) (attempts : list string) :
  Uploader.sweep w (Uploader.sweep w entries attempts).1
                   (Uploader.sweep w entries attempts).2
  = Uploader.sweep w entries attempts.
Proof.
  rewrite sweep_settled; [by destruct (Uploader.sweep w entries attempts)|].
  apply sweep_settles.
Qed.

(** X21.  In one pass the monitor hands to the client exactly the files
    that exist and are strictly larger than the size on record, in the
    order of the dictionary, whether or not the client then succeeds.  A
    file that shrank, or changed without growing, is not uploaded. *)
Theorem monitor_uploads_grown_files (w : Uploader.snapshot) (entries : list (string * nat))
    (attempts : list string) :
  (Uploader.sweep w entries attempts).2
  = attempts
    ++ (List.filter (λ entry, Uploader.path_exists w entry.1
                              && (entry.2 <? Uploader.path_getsize w entry.1)%nat)
          entries).*1.
Proof.
  revert attempts. induction entries as [|[name last] rest IH];
    intros attempts; cbn [Uploader.sweep List.filter fst snd].
  { by rewrite app_nil_r. }
  unfold Uploader.upload_file.
  destruct (Uploader.path_exists w name) eqn:Hex; cbn [negb andb].
  - destruct (last <? Uploader.path_getsize w name)%nat.
    + specialize (IH (attempts ++ [name])).
      destruct (Uploader.client_upload_file w name "jiwei-tos" name);
        cbn [snd]; destruct (Uploader.sweep w rest (attempts ++ [name]));
        cbn [snd] in *; rewrite IH; cbn [fmap list_fmap fst];
        by rewrite <- (assoc_L (++)).
    + specialize (IH attempts). destruct (Uploader.sweep w rest attempts).
      by cbn [snd] in *.
  - specialize (IH attempts). destruct (Uploader.sweep w rest attempts).
    by cbn [snd] in *.
Qed.


